(** * dataset_util: helpers for building TFRecord data sets

    A shallow embedding of
    [DEEPLEARNING/DL_DEEPLABV3SEG/nets/utils/dataset_util.py]:
    the feature encoders, [read_examples_list],
    [recursive_parse_xml_to_dict], [make_initializable_iterator] and
    the pipeline assembled by [read_dataset], followed by the
    properties that the specification states about them. *)

From Stdlib Require Import ZArith Ascii Lia.
From Stdlib.Strings Require Import Byte.
From Stdlib.Floats Require Import PrimFloat.
From Stdlib.Floats Require SpecFloat FloatOps.
From stdpp Require Import base option list list_monad gmap strings.

Set Warnings "-register-all".
Local Open Scope Z_scope.

(* ================================================================= *)
(** * Part I: the program *)
(* ================================================================= *)

(** ** Feature encoders

    [tf.train.Feature] is a tagged union of three list containers.  The
    integer container holds 64-bit signed integers: building it from a
    value outside that range raises.  The float container holds 32-bit
    floats: it narrows every Python float, which is a 64-bit one, to
    the nearest 32-bit float, and reads it back as such. *)

Definition int64_min : Z := - 2 ^ 63.
Definition int64_max : Z := 2 ^ 63 - 1.

Definition is_int64 (v : Z) : bool :=
  (int64_min <=? v) && (v <=? int64_max).

(** The conversion of a 64-bit float to a 32-bit one, given back as a
    64-bit float: the finite values are rounded to 24 bits of mantissa,
    to the nearest and to even on a tie, with the exponents of the
    32-bit format (the values too large become infinite, the small ones
    lose bits or become zero). *)
Definition to_float32 (x : float) : float :=
  match FloatOps.Prim2SF x with
  | SpecFloat.S754_finite s m e =>
      FloatOps.SF2Prim (SpecFloat.binary_round 24 128 s m e)
  | _ => x
  end.

Inductive Feature : Type :=
| int64_list (value : list Z)
| bytes_list (value : list (list byte))
| float_list (value : list float).

(** [tf.train.Int64List(value=...)]: [None] stands for the error that
    the container raises on an integer that does not fit. *)
Definition Int64List (value : list Z) : option (list Z) :=
  if forallb is_int64 value then Some value else None.

Definition BytesList (value : list (list byte)) : list (list byte) := value.

Definition FloatList (value : list float) : list float := to_float32 <$> value.

Definition int64_feature (value : Z) : option Feature :=
  int64_list <$> Int64List [value].

Definition int64_list_feature (value : list Z) : option Feature :=
  int64_list <$> Int64List value.

Definition bytes_feature (value : list byte) : Feature :=
  bytes_list (BytesList [value]).

Definition bytes_list_feature (value : list (list byte)) : Feature :=
  bytes_list (BytesList value).

Definition float_list_feature (value : list float) : Feature :=
  float_list (FloatList value).

(** The readers of a feature, [feature.int64_list.value] and its two
    siblings: the container that the union does not hold reads as
    empty. *)
Definition int64_list_value (f : Feature) : list Z :=
  match f with
  | int64_list value => value
  | _ => []
  end.

Definition bytes_list_value (f : Feature) : list (list byte) :=
  match f with
  | bytes_list value => value
  | _ => []
  end.

Definition float_list_value (f : Feature) : list float :=
  match f with
  | float_list value => value
  | _ => []
  end.

(** The tag of the union, [feature.WhichOneof('kind')]. *)
Definition WhichOneof (f : Feature) : string :=
  match f with
  | int64_list _ => "int64_list"
  | bytes_list _ => "bytes_list"
  | float_list _ => "float_list"
  end.

(** ** Reading the list of examples

    Text is a [string] of characters with code points below 256.
    [str.strip] without an argument removes the characters that
    [str.isspace] accepts; below 256 these are the tab, the line feed,
    the vertical tab, the form feed, the carriage return, the four
    separators 28 to 31, the space, the next-line character 133 and the
    no-break space 160. *)

Definition newline : ascii := ascii_of_nat 10.
Definition carriage_return : ascii := ascii_of_nat 13.
Definition space : ascii := ascii_of_nat 32.

Definition isspace (c : ascii) : bool :=
  let n := N_of_ascii c in
  ((9 <=? n) && (n <=? 13) || (28 <=? n) && (n <=? 31) || (n =? 32)
   || (n =? 133) || (n =? 160))%N.

Fixpoint lstrip (s : string) : string :=
  match s with
  | EmptyString => EmptyString
  | String c s' => if isspace c then lstrip s' else s
  end.

Fixpoint rstrip (s : string) : string :=
  match s with
  | EmptyString => EmptyString
  | String c s' =>
      match rstrip s' with
      | EmptyString => if isspace c then EmptyString else String c EmptyString
      | r => String c r
      end
  end.

Definition strip (s : string) : string := rstrip (lstrip s).

(** [s.split(sep)] for a separator of one character: one piece more
    than there are separators, empty pieces included. *)
Fixpoint split (sep : ascii) (s : string) : list string :=
  match s with
  | EmptyString => [EmptyString]
  | String c s' =>
      if decide (c = sep) then EmptyString :: split sep s'
      else match split sep s' with
           | [] => [String c EmptyString]
           | piece :: pieces => String c piece :: pieces
           end
  end.

(** [fid.readlines()] of [tf.gfile.GFile]: the reader of the library
    cuts the content after every line feed, each line keeping its line
    feed, and leaves out every carriage return; what follows the last
    line feed is a line if something is left of it. *)
Fixpoint readlines (content : string) : list string :=
  match content with
  | EmptyString => []
  | String c rest =>
      if decide (c = newline) then String c EmptyString :: readlines rest
      else if decide (c = carriage_return) then readlines rest
      else match readlines rest with
           | [] => [String c EmptyString]
           | line :: lines => String c line :: lines
           end
  end.

(** What a path of the file system leads to: a directory, a file that
    reads as text, with that text, or a file with a line that is no
    UTF-8 text. *)
Inductive entry : Type :=
| Directory
| TextFile (content : string)
| BinaryFile.

(** [tf.gfile.GFile(path).readlines()]: a path that leads nowhere
    raises on reading, as does a line that does not decode; a directory
    reads as no line at all.  An error is [None]. *)
Definition GFile_readlines (fs : gmap string entry) (path : string)
  : option (list string) :=
  match fs !! path with
  | None => None
  | Some Directory => Some []
  | Some (TextFile content) => Some (readlines content)
  | Some BinaryFile => None
  end.

Definition read_examples_list (fs : gmap string entry) (path : string)
  : option (list string) :=
  lines ← GFile_readlines fs path;
  mapM (λ line, split space (strip line) !! 0%nat) lines.

(** ** Python values

    The fragment of Python values that [recursive_parse_xml_to_dict]
    builds: [None], strings, lists and dictionaries keyed by strings.
    Dictionary equality in Python ignores insertion order, as does the
    equality of [gmap]. *)

Inductive pyval : Type :=
| PNone : pyval
| PStr (s : string) : pyval
| PList (items : list pyval) : pyval
| PDict (entries : gmap string pyval) : pyval.

(** ** XML elements

    The node interface of [lxml.etree] that the parser consumes: [tag],
    [text] ([None] when the element has no text) and iteration over the
    children.  The truth value of an element is that of its length: an
    element without children is false. *)

Inductive Element : Type :=
| Elem (tag : string) (text : option string) (children : list Element).

Definition tag (xml : Element) : string :=
  match xml with Elem t _ _ => t end.

Definition text (xml : Element) : option string :=
  match xml with Elem _ t _ => t end.

Definition children (xml : Element) : list Element :=
  match xml with Elem _ _ cs => cs end.

Definition text_value (t : option string) : pyval :=
  match t with
  | None => PNone
  | Some s => PStr s
  end.

(** [d[key]] on a value: a [KeyError] (or a [TypeError] on a value that
    is no dictionary) is [None]. *)
Definition getitem (d : pyval) (key : string) : option pyval :=
  match d with
  | PDict entries => entries !! key
  | _ => None
  end.

(** [result[key].append(v)]: the list stored under [key] is extended in
    place; a missing key or a value that is no list raises. *)
Definition append_at (key : string) (v : pyval) (result : gmap string pyval)
  : option (gmap string pyval) :=
  match result !! key with
  | Some (PList items) => Some (<[key := PList (items ++ [v])]> result)
  | _ => None
  end.

(** One turn of the loop body of [recursive_parse_xml_to_dict], given
    the result of the recursive call on the child. *)
Definition parse_child_step (child_tag : string) (child_result : pyval)
    (result : gmap string pyval) : option (gmap string pyval) :=
  v ← getitem child_result child_tag;
  if decide (child_tag ≠ "object") then
    Some (<[child_tag := v]> result)
  else
    let result :=
      if decide (result !! child_tag = None)
      then <[child_tag := PList []]> result
      else result in
    append_at child_tag v result.

(** The [for child in xml] loop, threading [result] through the
    children in document order. *)
Definition parse_children (parse : Element → option pyval)
  : list Element → gmap string pyval → option (gmap string pyval) :=
  fix loop cs result :=
    match cs with
    | [] => Some result
    | child :: cs' =>
        child_result ← parse child;
        result ← parse_child_step (tag child) child_result result;
        loop cs' result
    end.

Fixpoint recursive_parse_xml_to_dict (xml : Element) : option pyval :=
  match xml with
  | Elem xml_tag xml_text [] =>
      Some (PDict {[ xml_tag := text_value xml_text ]})
  | Elem xml_tag _ cs =>
      result ← parse_children recursive_parse_xml_to_dict cs ∅;
      Some (PDict {[ xml_tag := PDict result ]})
  end.

(** ** The input pipeline

    [tf.data.Dataset] objects are nodes of a dataflow graph: every
    transformation wraps its input in a new node and nothing is read
    until the graph is run.  [Dataset.t A] is the graph of a dataset
    whose elements have type [A]; its constructors are the
    transformations that [read_dataset] calls, with their arguments.
    The interleave stage maps a function over file paths, which are
    strings. *)

Module Dataset.

Inductive t : Type → Type :=
| from_tensor_slices {A : Type} (tensors : list A) : t A
| shard {A : Type} (num_shards index : Z) (input : t A) : t A
| repeat {A : Type} (count : option Z) (input : t A) : t A
| shuffle {A : Type} (buffer_size : Z) (reshuffle_each_iteration : bool)
    (input : t A) : t A
| interleave {B : Type} (map_func : string → t B)
    (cycle_length block_length : Z) (input : t string) : t B
| map {A B : Type} (map_func : A → B) (num_parallel_calls : Z)
    (input : t A) : t B
| prefetch {A : Type} (buffer_size : Z) (input : t A) : t A.

End Dataset.

(** The fields of [input_reader_pb2.InputReader] that [read_dataset]
    reads.  [num_epochs] is [None] when the field is unset. *)
Record InputReader : Type := {
  num_epochs : option Z;
  shuffle : bool;
  filenames_shuffle_buffer_size : Z;
  shuffle_buffer_size : Z;
  num_readers : Z;
  prefetch_buffer_size : Z
}.

(** [x or None]: a value that is false, here [None] and [0], gives
    [None]. *)
Definition or_None (x : option Z) : option Z :=
  match x with
  | Some n => if decide (n = 0) then None else Some n
  | None => None
  end.

Definition int32_min : Z := - 2 ^ 31.
Definition int32_max : Z := 2 ^ 31 - 1.

Definition is_int32 (v : Z) : bool :=
  (int32_min <=? v) && (v <=? int32_max).

(** A number taken as a 32-bit integer: the result of [tf.size], which
    is of that type, and a Python integer set against it, which must be
    of that type too.  A number that does not fit raises, which is
    [None]. *)
Definition as_int32 (v : Z) : option Z :=
  if is_int32 v then Some v else None.

(** [tf.size] of a vector. *)
Definition tf_size {A : Type} (tensor : list A) : Z := Z.of_nat (length tensor).

(** [tf.concat(values, 0)] of vectors: it raises when there is no
    vector to concatenate. *)
Definition tf_concat {A : Type} (values : list (list A)) : option (list A) :=
  match values with
  | [] => None
  | _ => Some (mjoin values)
  end.

Section ReadDataset.

(** [tf.matching_files]: the paths of the files that match a pattern,
    as the file system in use answers. *)
Variable matching_files : string → list string.

(** The element types of the sequences that [file_read_func] and
    [decode_func] produce. *)
Variables Record_ Decoded : Type.

(** [tf.concat([tf.matching_files(pattern) for pattern in input_files], 0)] *)
Definition read_dataset_filenames (input_files : list string)
  : option (list string) :=
  tf_concat (matching_files <$> input_files).

(** An error raised on the way is [None]: by [tf.concat] for an empty
    list of patterns, by [tf.minimum] for a [config.num_readers] that
    is no 32-bit integer, by [tf.size] for a number of files that is
    none. *)
Definition read_dataset
    (file_read_func : string → Dataset.t Record_)
    (decode_func : Record_ → Decoded)
    (input_files : list string) (config : InputReader)
    (num_workers worker_index : Z) : option (Dataset.t Decoded) :=
  filenames ← read_dataset_filenames input_files;
  let dataset := Dataset.from_tensor_slices filenames in
  let dataset := Dataset.shard num_workers worker_index dataset in
  let dataset := Dataset.repeat (or_None (num_epochs config)) dataset in
  let dataset :=
    if shuffle config
    then Dataset.shuffle (filenames_shuffle_buffer_size config) true dataset
    else dataset in
  size ← as_int32 (tf_size filenames);
  readers ← as_int32 (num_readers config);
  let cycle_length := Z.min readers size in
  let dataset := Dataset.interleave file_read_func cycle_length 1 dataset in
  let dataset :=
    if shuffle config
    then Dataset.shuffle (shuffle_buffer_size config) true dataset
    else dataset in
  let dataset := Dataset.map decode_func (num_readers config) dataset in
  Some (Dataset.prefetch (prefetch_buffer_size config) dataset).

(** The value of [dataset] after line 161 of the source: the shard of
    the file paths. *)
Definition read_dataset_shard (input_files : list string)
    (num_workers worker_index : Z) : option (Dataset.t string) :=
  filenames ← read_dataset_filenames input_files;
  Some (Dataset.shard num_workers worker_index
          (Dataset.from_tensor_slices filenames)).

End ReadDataset.

(** *** The stages of a pipeline

    The chain of transformations of a dataset, from its source to its
    last stage, each with the arguments that are no functions. *)

Inductive stage : Type :=
| FromTensorSlices (size : Z)
| Shard (num_shards index : Z)
| Repeat (count : option Z)
| Shuffle (buffer_size : Z) (reshuffle_each_iteration : bool)
| Interleave (cycle_length block_length : Z)
| Map (num_parallel_calls : Z)
| Prefetch (buffer_size : Z).

Fixpoint stages {A : Type} (dataset : Dataset.t A) : list stage :=
  match dataset with
  | Dataset.from_tensor_slices tensors => [FromTensorSlices (tf_size tensors)]
  | Dataset.shard n i input => stages input ++ [Shard n i]
  | Dataset.repeat count input => stages input ++ [Repeat count]
  | Dataset.shuffle b r input => stages input ++ [Shuffle b r]
  | Dataset.interleave _ c b input => stages input ++ [Interleave c b]
  | Dataset.map _ n input => stages input ++ [Map n]
  | Dataset.prefetch b input => stages input ++ [Prefetch b]
  end.

Definition interleave_arguments (s : stage) : option (Z * Z) :=
  match s with
  | Interleave cycle_length block_length => Some (cycle_length, block_length)
  | _ => None
  end.

(** The dataset of file paths that the interleave stage of a pipeline
    reads. *)
Fixpoint interleave_input {A : Type} (dataset : Dataset.t A)
  : option (Dataset.t string) :=
  match dataset with
  | Dataset.from_tensor_slices _ => None
  | Dataset.shard _ _ input => interleave_input input
  | Dataset.repeat _ input => interleave_input input
  | Dataset.shuffle _ _ input => interleave_input input
  | Dataset.interleave _ _ _ input => Some input
  | Dataset.map _ _ input => interleave_input input
  | Dataset.prefetch _ input => interleave_input input
  end.

(** The input of a shuffle stage; a dataset that is no shuffle stage
    is given back. *)
Definition shuffle_input {A : Type} (dataset : Dataset.t A) : Dataset.t A :=
  match dataset in Dataset.t T return Dataset.t T with
  | Dataset.shuffle _ _ input => input
  | Dataset.from_tensor_slices tensors => Dataset.from_tensor_slices tensors
  | Dataset.shard n i input => Dataset.shard n i input
  | Dataset.repeat count input => Dataset.repeat count input
  | Dataset.interleave f c b input => Dataset.interleave f c b input
  | Dataset.map f n input => Dataset.map f n input
  | Dataset.prefetch b input => Dataset.prefetch b input
  end.

(** The input of a repeat stage. *)
Definition repeat_input {A : Type} (dataset : Dataset.t A)
  : option (Dataset.t A) :=
  match dataset in Dataset.t T return option (Dataset.t T) with
  | Dataset.repeat _ input => Some input
  | _ => None
  end.

(** *** What the stages produce

    A sequence of elements is finite, or a non-empty cycle gone through
    without end. *)

Inductive sequence (A : Type) : Type :=
| Finite (items : list A)
| Forever (cycle : list A).

Arguments Finite {A} items.
Arguments Forever {A} cycle.


(** The elements that occur in a sequence. *)
Definition occurring {A : Type} (s : sequence A) : list A :=
  match s with
  | Finite items => items
  | Forever cycle => cycle
  end.

Definition sequence_map {A B : Type} (f : A → B) (s : sequence A)
  : sequence B :=
  match s with
  | Finite items => Finite (f <$> items)
  | Forever cycle => Forever (f <$> cycle)
  end.

(** Modelled from the spec: the sharding transformation belongs to the
    lazy-sequence library, which is not part of the sources.  As §4.4
    step 2 words it, an element is kept when its index modulo the number
    of shards is the index of the shard; [next_index] counts the
    elements seen so far. *)
Fixpoint shard_from {A : Type} (num_shards index next_index : Z)
    (elems : list A) : list A :=
  match elems with
  | [] => []
  | x :: rest =>
      let kept := shard_from num_shards index (next_index + 1) rest in
      if decide (next_index mod num_shards = index) then x :: kept else kept
  end.

(** Modelled from the spec: the repetition transformation belongs to the
    lazy-sequence library, which is not part of the sources.  As §4.4
    step 3 words it, the sequence is repeated [count] times, or
    indefinitely if [count] is unset (the library also takes a negative
    count for unset); repeating nothing gives nothing. *)
Definition repeat_elements {A : Type} (count : option Z) (elems : list A)
  : sequence A :=
  let indefinitely :=
    match elems with
    | [] => Finite []
    | _ => Forever elems
    end in
  match count with
  | None => indefinitely
  | Some n =>
      if decide (n < 0) then indefinitely
      else Finite (mjoin (replicate (Z.to_nat n) elems))
  end.

(** Modelled from the spec: the elements of a pipeline, for the stages
    of the lazy-sequence library whose output §4.4 fixes.  The shard
    and the repetition are those above (steps 2 and 3); the decoding
    maps its function over the records and the prefetch passes them on
    (steps 7 and 8).  The records of the interleave stage come from the
    files it reads (step 5): with a positive cycle length and files that
    hold no record, there is no record.  The result is [None] where the
    shard index is out of range, which the library rejects, and where
    this model does not determine the output: the order in which an
    interleave stage takes the records of its files, a cycle length
    that is not positive and what a shuffle stage makes of its input. *)
Fixpoint elements {A : Type} (dataset : Dataset.t A) : option (sequence A) :=
  match dataset with
  | Dataset.from_tensor_slices tensors => Some (Finite tensors)
  | Dataset.shard n i input =>
      s ← elements input;
      match s with
      | Finite items =>
          if decide (0 ≤ i < n) then Some (Finite (shard_from n i 0 items))
          else None
      | Forever _ => None
      end
  | Dataset.repeat count input =>
      s ← elements input;
      match s with
      | Finite items => Some (repeat_elements count items)
      | Forever cycle => Some (Forever cycle)
      end
  | Dataset.shuffle _ _ _ => None
  | Dataset.interleave map_func cycle_length _ input =>
      paths ← elements input;
      if bool_decide (0 < cycle_length)
         && forallb (λ path,
              match elements (map_func path) with
              | Some (Finite []) => true
              | _ => false
              end) (occurring paths)
      then Some (Finite [])
      else None
  | Dataset.map map_func _ input => sequence_map map_func <$> elements input
  | Dataset.prefetch _ input => elements input
  end.

(** ** Initializable iterators

    [tf.add_to_collection] works on the collections of the default
    graph, which are lists of values kept under a name: the value is
    put at the end of the list of that name, which is created when it
    is not there yet.  The collections are the part of the graph that
    [make_initializable_iterator] is written for; the operations that
    the library adds to the graph when it creates an iterator are not
    part of the state. *)

(** [tf.GraphKeys.TABLE_INITIALIZERS] *)
Definition TABLE_INITIALIZERS : string := "table_initializer".

(** [tf.GraphKeys.GLOBAL_ITERATORS] *)
Definition GLOBAL_ITERATORS : string := "iterators".

Definition add_to_collection {operation : Type} (name : string)
    (value : operation) (collections : gmap string (list operation))
  : gmap string (list operation) :=
  <[name := default [] (collections !! name) ++ [value]]> collections.

Section MakeIterator.

(** The iterators of the library, with the resource of an iterator and
    the operation that initializes it, and the iterator that the
    library builds for a dataset. *)
Variables (operation : Type) (Iterator : Type → Type).
Variable iterator_resource : ∀ A : Type, Iterator A → operation.
Variable initializer : ∀ A : Type, Iterator A → operation.
Variable new_iterator : ∀ A : Type, Dataset.t A → Iterator A.

(** [dataset.make_initializable_iterator()]: the library puts the
    resource of the iterator that it builds into the collection of the
    iterators of the graph. *)
Definition Dataset_make_initializable_iterator {A : Type}
    (collections : gmap string (list operation)) (dataset : Dataset.t A)
  : gmap string (list operation) * Iterator A :=
  let iterator := new_iterator A dataset in
  (add_to_collection GLOBAL_ITERATORS (iterator_resource A iterator)
     collections,
   iterator).

(** The collections of the default graph go in and come out. *)
Definition make_initializable_iterator {A : Type}
    (collections : gmap string (list operation)) (dataset : Dataset.t A)
  : gmap string (list operation) * Iterator A :=
  let '(collections, iterator) :=
    Dataset_make_initializable_iterator collections dataset in
  let collections :=
    add_to_collection TABLE_INITIALIZERS (initializer A iterator)
      collections in
  (collections, iterator).

(** A caller that makes an iterator for one dataset after the other. *)
Fixpoint make_initializable_iterators {A : Type}
    (collections : gmap string (list operation))
    (datasets : list (Dataset.t A))
  : gmap string (list operation) * list (Iterator A) :=
  match datasets with
  | [] => (collections, [])
  | dataset :: rest =>
      let '(collections, iterator) :=
        make_initializable_iterator collections dataset in
      let '(collections, iterators) :=
        make_initializable_iterators collections rest in
      (collections, iterator :: iterators)
  end.

End MakeIterator.

(* ================================================================= *)
(** * Part II: the notions of the specification *)
(* ================================================================= *)

(** ** Features *)

(** The 64-bit float that the decimal 0.1 denotes in Python. *)
Definition one_tenth : float := 0x1.999999999999ap-4%float.

(** A float that a 32-bit float holds as it is. *)
Definition fits_float32 (x : float) : Prop := to_float32 x = x.

(** ** Identifier lists *)

(** The characters of a token: the longest prefix free of whitespace. *)
Fixpoint take_token (s : string) : string :=
  match s with
  | EmptyString => EmptyString
  | String c s' => if isspace c then EmptyString else String c (take_token s')
  end.

(** The first whitespace-delimited token of a line. *)
Definition first_token (line : string) : string := take_token (lstrip line).

(** The text before the first occurrence of a character. *)
Fixpoint before (sep : ascii) (s : string) : string :=
  match s with
  | EmptyString => EmptyString
  | String c s' =>
      if decide (c = sep) then EmptyString else String c (before sep s')
  end.

(** A line made of whitespace only, the empty line included. *)
Fixpoint blank (s : string) : bool :=
  match s with
  | EmptyString => true
  | String c s' => isspace c && blank s'
  end.

(** A string without any whitespace character. *)
Fixpoint solid (s : string) : bool :=
  match s with
  | EmptyString => true
  | String c s' => negb (isspace c) && solid s'
  end.

(** The number of lines of a text: one per line feed, and one more for
    a last line that no line feed ends. *)
Fixpoint line_count (content : string) : nat :=
  match content with
  | EmptyString => 0
  | String c rest =>
      if decide (c = newline) then S (line_count rest)
      else match rest with
           | EmptyString => 1
           | _ => line_count rest
           end
  end.

(** A text with every occurrence of a character left out. *)
Fixpoint without (c : ascii) (s : string) : string :=
  match s with
  | EmptyString => EmptyString
  | String d s' =>
      if decide (d = c) then without c s' else String d (without c s')
  end.

(** A character occurs in a string. *)
Fixpoint occurs (c : ascii) (s : string) : bool :=
  match s with
  | EmptyString => false
  | String d s' => if decide (d = c) then true else occurs c s'
  end.

(** A string that begins with a whitespace character. *)
Definition leading_space (s : string) : bool :=
  match s with
  | EmptyString => false
  | String c _ => isspace c
  end.

(** A line feed is nowhere in a string but, at most, at its end. *)
Fixpoint newline_last (s : string) : bool :=
  match s with
  | EmptyString => true
  | String c s' =>
      match s' with
      | EmptyString => true
      | _ => negb (bool_decide (c = newline)) && newline_last s'
      end
  end.

(** What may follow an identifier on its line: nothing but whitespace,
    or a space and then anything; no line feed in either case. *)
Definition line_tail (tail : string) : bool :=
  negb (occurs newline tail)
  && (blank tail
      || match tail with
         | String c _ => bool_decide (c = space)
         | EmptyString => false
         end).

(** An identifier as the docstring of [read_examples_list] has it: a
    token, not empty and free of whitespace. *)
Definition identifier (id : string) : bool :=
  solid id && negb (bool_decide (id = EmptyString)).

(** The text of a list file: one line per example, the identifier first. *)
Fixpoint examples_file (examples : list (string * string)) : string :=
  match examples with
  | [] => EmptyString
  | (id, tail) :: rest =>
      id +:+ tail +:+ String newline (examples_file rest)
  end.

(** *** Files used as examples *)

Definition tab : ascii := ascii_of_nat 9.

(** The file of §8: three lines of an identifier and a number. *)
Definition three_lines : string :=
  "a 1" +:+ String newline ("b 2" +:+ String newline
    ("c 3" +:+ String newline "")).

(** A file whose only line separates its two tokens by a tab. *)
Definition tab_line : string :=
  "a" +:+ String tab ("1" +:+ String newline "").

(** A file with an empty second line and spaces on its third one. *)
Definition sparse_lines : string :=
  "a 1" +:+ String newline (String newline ("  " +:+ String newline "c")).

(** A file of one carriage return. *)
Definition lone_return : string := String carriage_return "".

(** ** Annotation trees *)

(** A value that is no list: the text of a leaf or the mapping of an
    inner node. *)
Definition scalar_or_dict (v : pyval) : Prop :=
  match v with
  | PList _ => False
  | _ => True
  end.

(** What a call of the parser returns: a single entry under the tag of
    the node. *)
Definition returns_entry (parse : Element → option pyval) (xml : Element)
    (v : pyval) : Prop :=
  parse xml = Some (PDict {[ tag xml := v ]}) ∧ scalar_or_dict v.

(** Invariant of the loop: the key "object", when present, holds a list. *)
Definition object_is_list (result : gmap string pyval) : Prop :=
  ∀ v, result !! "object" = Some v → ∃ items, v = PList items.

(** The value that the parser returned for a child. *)
Definition parsed_value (child : Element) (v : pyval) : Prop :=
  recursive_parse_xml_to_dict child = Some (PDict {[ tag child := v ]}).

(** The key "object" of a mapping holds the list [items], and is not
    there when the list is empty. *)
Definition holds_objects (result : gmap string pyval) (items : list pyval)
  : Prop :=
  match items with
  | [] => result !! "object" = None
  | _ => result !! "object" = Some (PList items)
  end.

(** ** The pipeline, stage by stage *)

(** The calls on which [read_dataset] builds a pipeline: some pattern
    is given, and the number of readers and the number of matched files
    are 32-bit integers. *)
Definition builds_pipeline (matching_files : string → list string)
    (input_files : list string) (config : InputReader) : Prop :=
  input_files ≠ [] ∧
  is_int32 (num_readers config) = true ∧
  is_int32 (tf_size (mjoin (matching_files <$> input_files))) = true.

(** A shuffle stage that is there only when shuffling is asked for; it
    shuffles again on every pass. *)
Definition shuffle_if {A : Type} (enabled : bool) (buffer_size : Z)
    (dataset : Dataset.t A) : Dataset.t A :=
  if enabled then Dataset.shuffle buffer_size true dataset else dataset.

(** The stages of §4.4 in their order, for [n_files] matched paths. *)
Definition spec_stages (config : InputReader) (num_workers worker_index : Z)
    (n_files : Z) : list stage :=
  [ FromTensorSlices n_files;
    Shard num_workers worker_index;
    Repeat (match num_epochs config with
            | Some 0 | None => None
            | Some n => Some n
            end) ]
  ++ (if shuffle config
      then [Shuffle (filenames_shuffle_buffer_size config) true] else [])
  ++ [ Interleave (Z.min (num_readers config) n_files) 1 ]
  ++ (if shuffle config
      then [Shuffle (shuffle_buffer_size config) true] else [])
  ++ [ Map (num_readers config);
       Prefetch (prefetch_buffer_size config) ].

(** The file paths that a pipeline repeats, epoch after epoch: the
    elements of the stage before the interleave stage, or before the
    shuffle of the file names when there is one. *)
Definition epoch_paths {A : Type} (dataset : Dataset.t A)
  : option (sequence string) :=
  paths ← interleave_input dataset;
  elements (shuffle_input paths).

(** The file paths of the shard of a pipeline: the elements of the
    stage that the repetition repeats. *)
Definition shard_paths {A : Type} (dataset : Dataset.t A)
  : option (sequence string) :=
  paths ← interleave_input dataset;
  sharded ← repeat_input (shuffle_input paths);
  elements sharded.

(** The files of a worker, as a list: the elements of the shard stage. *)
Definition worker_files (matching_files : string → list string)
    (input_files : list string) (num_workers worker_index : Z)
  : option (sequence string) :=
  sharded ← read_dataset_shard matching_files input_files
              num_workers worker_index;
  elements sharded.

(** The shards of all the workers, from worker 0 on. *)
Definition all_shards {A : Type} (num_workers : Z) (elems : list A)
  : list (list A) :=
  (λ w : Z, shard_from num_workers w 0 elems) <$> seqZ 0 num_workers.

(** The arguments of a shuffle stage. *)
Definition shuffle_arguments (s : stage) : option (Z * bool) :=
  match s with
  | Shuffle buffer_size reshuffle => Some (buffer_size, reshuffle)
  | _ => None
  end.

(** *** Calls used as examples *)

(** A file system in which every pattern is the path of a file. *)
Definition literal_files (pattern : string) : list string := [pattern].

(** A file system with two files under [train-*] and three files under
    any other pattern. *)
Definition train_val_files (pattern : string) : list string :=
  if decide (pattern = "train-*") then ["train-0"; "train-1"]
  else ["val-0"; "val-1"; "val-2"].

(** Files of one record each, the path of the file, and files without
    any record. *)
Definition one_record_files (path : string) : Dataset.t string :=
  Dataset.from_tensor_slices [path].


(** A configuration that sets every field: three epochs, shuffling,
    four readers. *)
Definition three_epochs : InputReader := {|
  num_epochs := Some 3;
  shuffle := true;
  filenames_shuffle_buffer_size := 100;
  shuffle_buffer_size := 2048;
  num_readers := 4;
  prefetch_buffer_size := 512
|}.

(** The same configuration with [num_epochs] left at zero. *)
Definition endless : InputReader := {|
  num_epochs := Some 0;
  shuffle := true;
  filenames_shuffle_buffer_size := 100;
  shuffle_buffer_size := 2048;
  num_readers := 4;
  prefetch_buffer_size := 512
|}.


(** A configuration with more readers than the example has files. *)
Definition many_readers : InputReader := {|
  num_epochs := Some 1;
  shuffle := false;
  filenames_shuffle_buffer_size := 100;
  shuffle_buffer_size := 2048;
  num_readers := 64;
  prefetch_buffer_size := 2
|}.

(* ================================================================= *)
(** * Part III: properties *)
(* ================================================================= *)

(** ** The annotation tree parser *)

Module XmlParser.

(** Induction over elements that also covers the children. *)
Lemma Element_children_ind (P : Element → Prop) :
  (∀ t tx cs, Forall P cs → P (Elem t tx cs)) → ∀ xml, P xml.
Proof.
  intros step. fix IH 1. intros [t tx cs]. apply step.
  induction cs as [|c cs IHcs]; constructor; [apply IH | exact IHcs].
Qed.

Lemma object_is_list_empty : object_is_list ∅.
Proof. intros v Hv. by rewrite lookup_empty in Hv. Qed.

Lemma getitem_entry (t : string) (v : pyval) :
  getitem (PDict {[ t := v ]}) t = Some v.
Proof. simpl. apply lookup_singleton_eq. Qed.

Lemma parse_child_step_plain (t : string) (v : pyval)
    (result : gmap string pyval) :
  t ≠ "object" →
  parse_child_step t (PDict {[ t := v ]}) result = Some (<[t := v]> result).
Proof.
  intros Ht. unfold parse_child_step. rewrite getitem_entry. simpl.
  by rewrite decide_True.
Qed.

Lemma parse_child_step_object (v : pyval) (result : gmap string pyval) :
  object_is_list result →
  ∃ items,
    parse_child_step "object" (PDict {[ "object" := v ]}) result
      = Some (<["object" := PList (items ++ [v])]> result) ∧
    (result !! "object" = None ∧ items = [] ∨
     result !! "object" = Some (PList items)).
Proof.
  intros Hinv. unfold parse_child_step. rewrite getitem_entry. simpl.
  destruct (decide ("object" ≠ "object")) as [Hne|_]; [by destruct Hne|].
  destruct (result !! "object") as [w|] eqn:Hw.
  - destruct (Hinv w Hw) as [items ->].
    rewrite decide_False by done.
    exists items. unfold append_at. rewrite Hw. eauto.
  - rewrite decide_True by done. exists []. unfold append_at.
    rewrite lookup_insert_eq, insert_insert_eq. eauto.
Qed.

(** A turn of the loop never fails on the result of a recursive call,
    keeps the invariant, and touches no key but the tag of the child. *)
Lemma parse_child_step_total (t : string) (v : pyval)
    (result : gmap string pyval) :
  object_is_list result → scalar_or_dict v →
  ∃ result',
    parse_child_step t (PDict {[ t := v ]}) result = Some result' ∧
    object_is_list result' ∧
    (∀ k, k ≠ t → result' !! k = result !! k) ∧
    (t ≠ "object" → result' !! t = Some v).
Proof.
  intros Hinv Hv. destruct (decide (t = "object")) as [->|Ht].
  - destruct (parse_child_step_object v result Hinv) as (items & -> & _).
    eexists; split; [done|]. split; [|split].
    + intros w. rewrite lookup_insert_eq. intros [= <-]. eauto.
    + intros k Hk. by rewrite lookup_insert_ne.
    + done.
  - rewrite parse_child_step_plain by done.
    eexists; split; [done|]. split; [|split].
    + intros w Hw. rewrite lookup_insert_ne in Hw by done. eauto.
    + intros k Hk. by rewrite lookup_insert_ne.
    + intros _. apply lookup_insert_eq.
Qed.

Section Loop.

Variable parse : Element → option pyval.

Lemma parse_children_cons (c : Element) (cs : list Element)
    (v : pyval) (result result' : gmap string pyval) :
  parse c = Some (PDict {[ tag c := v ]}) →
  parse_child_step (tag c) (PDict {[ tag c := v ]}) result = Some result' →
  parse_children parse (c :: cs) result = parse_children parse cs result'.
Proof. intros Hc Hstep. simpl. rewrite Hc. simpl. by rewrite Hstep. Qed.

(** The loop runs to its end whenever every recursive call returns. *)
Lemma parse_children_total (cs : list Element) :
  Forall (λ c, ∃ v, returns_entry parse c v) cs →
  ∀ result, object_is_list result →
  ∃ result',
    parse_children parse cs result = Some result' ∧
    object_is_list result' ∧
    (∀ k, Forall (λ c, tag c ≠ k) cs → result' !! k = result !! k).
Proof.
  induction 1 as [|c cs (v & Hc & Hv) _ IH]; intros result Hinv.
  - exists result. by repeat split.
  - destruct (parse_child_step_total (tag c) v result Hinv Hv)
      as (r1 & Hstep & Hinv1 & Hother & _).
    destruct (IH r1 Hinv1) as (r2 & Hloop & Hinv2 & Hkeep).
    exists r2. rewrite (parse_children_cons c cs v result r1 Hc Hstep).
    split; [done|]. split; [done|].
    intros k Hk. apply Forall_cons in Hk as [Hck Hk].
    rewrite Hkeep by done. by apply Hother.
Qed.

(** The entry of a tag other than "object" is that of its last child. *)
Lemma parse_children_last (pre post : list Element) (c : Element)
    (v : pyval) (result : gmap string pyval) :
  Forall (λ c, ∃ v, returns_entry parse c v) (pre ++ c :: post) →
  returns_entry parse c v →
  tag c ≠ "object" →
  Forall (λ c', tag c' ≠ tag c) post →
  object_is_list result →
  ∃ result',
    parse_children parse (pre ++ c :: post) result = Some result' ∧
    result' !! tag c = Some v.
Proof.
  intros Hall [Hc Hv] Hobj Hpost. revert result.
  induction pre as [|p pre IH]; intros result Hinv; simpl in Hall.
  - apply Forall_cons in Hall as [_ Hall].
    destruct (parse_child_step_total (tag c) v result Hinv Hv)
      as (r1 & Hstep & Hinv1 & _ & Hset).
    destruct (parse_children_total post Hall r1 Hinv1)
      as (r2 & Hloop & _ & Hkeep).
    exists r2. simpl app.
    rewrite (parse_children_cons c post v result r1 Hc Hstep).
    split; [done|]. rewrite Hkeep by done. by apply Hset.
  - apply Forall_cons in Hall as [(w & Hp & Hw) Hall].
    destruct (parse_child_step_total (tag p) w result Hinv Hw)
      as (r1 & Hstep & Hinv1 & _).
    destruct (IH Hall r1 Hinv1) as (r2 & Hloop & Hlook).
    exists r2. simpl app.
    by rewrite (parse_children_cons p _ w result r1 Hp Hstep).
Qed.

End Loop.

Lemma recursive_parse_inner (t : string) (tx : option string)
    (c : Element) (cs : list Element) :
  recursive_parse_xml_to_dict (Elem t tx (c :: cs)) =
  result ← parse_children recursive_parse_xml_to_dict (c :: cs) ∅;
  Some (PDict {[ t := PDict result ]}).
Proof. reflexivity. Qed.

(** The parser is total: on every element it returns a mapping with the
    single key [tag xml], and raises nowhere. *)
Lemma recursive_parse_xml_to_dict_total (xml : Element) :
  ∃ v, returns_entry recursive_parse_xml_to_dict xml v.
Proof.
  induction xml as [t tx cs IH] using Element_children_ind.
  destruct cs as [|c cs].
  - exists (text_value tx). split; [done|]. by destruct tx.
  - destruct (parse_children_total _ (c :: cs) IH ∅ object_is_list_empty)
      as (result & Hloop & _).
    exists (PDict result). split; [|done].
    rewrite recursive_parse_inner. by rewrite Hloop.
Qed.

(** The leaf of §8: [<name>Alice</name>] gives [{"name": "Alice"}]. *)
Example parse_leaf :
  recursive_parse_xml_to_dict (Elem "name" (Some "Alice") [])
  = Some (PDict {[ "name" := PStr "Alice" ]}).
Proof. reflexivity. Qed.

(** C2, as the code has it: for a node whose children are exactly two
    leaf "object" elements with texts [a] and [b], the parser returns
    the single-entry mapping from the tag of the node to a mapping with
    the one key "object", which holds the ordered sequence of length 2
    of the values of the children, that is their texts [a] and [b]
    themselves, not the mappings that the recursive calls returned. *)
Theorem two_objects_accumulate (t : string) (tx : option string)
    (a b : string) :
  recursive_parse_xml_to_dict
    (Elem t tx [Elem "object" (Some a) []; Elem "object" (Some b) []])
  = Some (PDict {[ t := PDict {[ "object" := PList [PStr a; PStr b] ]} ]}).
Proof.
  rewrite recursive_parse_inner.
  cbn [parse_children recursive_parse_xml_to_dict tag text_value mbind
       option_bind].
  destruct (parse_child_step_object (PStr a) ∅ object_is_list_empty)
    as (items & -> & [[_ ->]|Habs]); [|by rewrite lookup_empty in Habs].
  cbn [mbind option_bind app].
  assert (object_is_list (<["object" := PList [PStr a]]> ∅)) as Hinv.
  { intros w. rewrite lookup_insert_eq. intros [= <-]. eauto. }
  destruct (parse_child_step_object (PStr b) _ Hinv)
    as (items & -> & [[Habs _]|Hitems]).
  { by rewrite lookup_insert_eq in Habs. }
  rewrite lookup_insert_eq in Hitems. injection Hitems as <-.
  cbn [mbind option_bind app]. by rewrite insert_insert_eq, insert_empty.
Qed.

(** C2, as the specification words it, fails on the document of §8: the
    sequence under "object" does not hold the results of the recursive
    calls, [{"object": "A"}] and [{"object": "B"}]. *)
Lemma two_objects_not_wrapped :
  recursive_parse_xml_to_dict
    (Elem "root" None
       [Elem "object" (Some "A") []; Elem "object" (Some "B") []])
  ≠ Some (PDict {[ "root" :=
       PDict {[ "object" :=
         PList [PDict {[ "object" := PStr "A" ]};
                PDict {[ "object" := PStr "B" ]}] ]} ]}).
Proof.
  assert (recursive_parse_xml_to_dict
            (Elem "root" None
               [Elem "object" (Some "A") []; Elem "object" (Some "B") []])
          = Some (PDict {[ "root" :=
              PDict {[ "object" := PList [PStr "A"; PStr "B"] ]} ]}))
    as -> by reflexivity.
  intros Heq.
  apply (f_equal (λ r, d ← r; d ← getitem d "root"; getitem d "object"))
    in Heq.
  cbn [mbind option_bind getitem] in Heq.
  rewrite !lookup_singleton_eq in Heq.
  cbn [mbind option_bind getitem] in Heq.
  rewrite !lookup_singleton_eq in Heq.
  discriminate Heq.
Qed.

(** C8: when children of a node share a tag [t] other than "object",
    the parser raises nothing and the mapping of the node holds under
    [t] the value parsed from the last of them in document order, [c];
    that value is no list, so nothing of the earlier ones is kept. *)
Theorem repeated_tag_last_wins (xml_tag : string) (xml_text : option string)
    (pre post : list Element) (earlier c : Element) (t : string) :
  t ≠ "object" →
  earlier ∈ pre → tag earlier = t →
  tag c = t →
  Forall (λ later, tag later ≠ t) post →
  ∃ (v : pyval) (result : gmap string pyval),
    recursive_parse_xml_to_dict c = Some (PDict {[ t := v ]}) ∧
    recursive_parse_xml_to_dict (Elem xml_tag xml_text (pre ++ c :: post))
      = Some (PDict {[ xml_tag := PDict result ]}) ∧
    result !! t = Some v ∧
    scalar_or_dict v.
Proof.
  intros Hobj _ _ <- Hpost.
  destruct (recursive_parse_xml_to_dict_total c) as (v & Hc).
  assert (Forall (λ c, ∃ v, returns_entry recursive_parse_xml_to_dict c v)
            (pre ++ c :: post)) as Hall.
  { apply Forall_forall. intros x _. apply recursive_parse_xml_to_dict_total. }
  destruct (parse_children_last _ pre post c v ∅ Hall Hc Hobj Hpost
              object_is_list_empty) as (result & Hloop & Hlook).
  exists v, result. destruct Hc as [Hc Hv]. split; [done|].
  split; [|done].
  destruct (pre ++ c :: post) as [|x xs] eqn:Hxs.
  { by destruct pre. }
  rewrite recursive_parse_inner. by rewrite Hloop.
Qed.

(** An instance of C8: two [name] children, the second one is kept. *)
Lemma repeated_tag_last_wins_witness :
  ∃ (v : pyval) (result : gmap string pyval),
    recursive_parse_xml_to_dict (Elem "name" (Some "second") [])
      = Some (PDict {[ "name" := v ]}) ∧
    recursive_parse_xml_to_dict
      (Elem "annotation" None
         ([Elem "name" (Some "first") []]
          ++ Elem "name" (Some "second") []
          :: [Elem "size" (Some "3") []]))
      = Some (PDict {[ "annotation" := PDict result ]}) ∧
    result !! "name" = Some v ∧
    scalar_or_dict v.
Proof.
  apply (repeated_tag_last_wins "annotation" None
           [Elem "name" (Some "first") []] [Elem "size" (Some "3") []]
           (Elem "name" (Some "first") []) (Elem "name" (Some "second") [])
           "name").
  - discriminate.
  - apply list_elem_of_here.
  - reflexivity.
  - reflexivity.
  - repeat constructor. discriminate.
Defined.

End XmlParser.

(** ** More on the annotation tree parser *)

Module XmlTree.

Lemma holds_objects_is_list (result : gmap string pyval)
    (items : list pyval) :
  holds_objects result items → object_is_list result.
Proof.
  intros Hobj v Hv. destruct items as [|x items]; simpl in Hobj.
  - by rewrite Hobj in Hv.
  - rewrite Hobj in Hv. injection Hv as <-. eauto.
Qed.

(** A turn of the loop sets the key of the tag of the child and no
    other key. *)
Lemma parse_child_step_insert (t : string) (v : pyval)
    (result : gmap string pyval) :
  object_is_list result →
  ∃ w, parse_child_step t (PDict {[ t := v ]}) result
       = Some (<[t := w]> result).
Proof.
  intros Hinv. destruct (decide (t = "object")) as [->|Ht].
  - destruct (XmlParser.parse_child_step_object v result Hinv)
      as (items & -> & _). eauto.
  - rewrite XmlParser.parse_child_step_plain by done. eauto.
Qed.

Lemma parse_child_step_objects (t : string) (v : pyval)
    (result : gmap string pyval) (items : list pyval) :
  holds_objects result items →
  ∃ result',
    parse_child_step t (PDict {[ t := v ]}) result = Some result' ∧
    holds_objects result'
      (if decide (t = "object") then items ++ [v] else items).
Proof.
  intros Hobj. pose proof (holds_objects_is_list _ _ Hobj) as Hinv.
  case_decide as Ht.
  - subst t.
    destruct (XmlParser.parse_child_step_object v result Hinv)
      as (items' & -> & Hitems).
    eexists. split; [done|].
    assert (items' = items) as ->.
    { destruct items as [|x items]; simpl in Hobj;
        destruct Hitems as [[Hnone ->]|Hsome]; congruence. }
    unfold holds_objects. rewrite lookup_insert_eq.
    by destruct items.
  - rewrite XmlParser.parse_child_step_plain by done.
    eexists. split; [done|].
    unfold holds_objects in *. rewrite lookup_insert_ne by done.
    exact Hobj.
Qed.

Section Loop.

Variable parse : Element → option pyval.

Lemma parse_children_keys (cs : list Element) :
  Forall (λ c, ∃ v, returns_entry parse c v) cs →
  ∀ result, object_is_list result →
  ∃ result',
    parse_children parse cs result = Some result' ∧
    object_is_list result' ∧
    ∀ k, is_Some (result' !! k) ↔ is_Some (result !! k) ∨ k ∈ tag <$> cs.
Proof.
  induction 1 as [|c cs (v & Hc & Hv) _ IH]; intros result Hinv.
  - exists result. split; [done|]. split; [done|].
    intros k. rewrite fmap_nil, elem_of_nil. tauto.
  - destruct (parse_child_step_insert (tag c) v result Hinv) as (w & Hstep).
    destruct (XmlParser.parse_child_step_total (tag c) v result Hinv Hv)
      as (r1 & Hstep' & Hinv1 & _).
    rewrite Hstep in Hstep'. injection Hstep' as <-.
    destruct (IH _ Hinv1) as (r2 & Hloop & Hinv2 & Hkeys).
    exists r2.
    rewrite (XmlParser.parse_children_cons parse c cs v result _ Hc Hstep).
    split; [done|]. split; [done|].
    intros k. rewrite Hkeys, fmap_cons, elem_of_cons.
    destruct (decide (tag c = k)) as [<-|Hne].
    + rewrite lookup_insert_eq. split; [auto|]. intros _. left. eauto.
    + rewrite lookup_insert_ne by done. split; [tauto|].
      intros [?|[?|?]]; [tauto|congruence|tauto].
Qed.

Lemma parse_children_objects (cs : list Element) :
  Forall (λ c, ∃ v, returns_entry parse c v) cs →
  ∀ result items, holds_objects result items →
  ∃ result' values,
    parse_children parse cs result = Some result' ∧
    Forall2 (λ c v, parse c = Some (PDict {[ tag c := v ]}))
      (filter (λ c, tag c = "object") cs) values ∧
    holds_objects result' (items ++ values).
Proof.
  induction 1 as [|c cs (v & Hc & Hv) _ IH]; intros result items Hobj.
  - exists result, []. rewrite app_nil_r. by repeat split.
  - destruct (parse_child_step_objects (tag c) v result items Hobj)
      as (r1 & Hstep & Hobj1).
    destruct (IH _ _ Hobj1) as (r2 & values & Hloop & Hvalues & Hobj2).
    rewrite (XmlParser.parse_children_cons parse c cs v result r1 Hc Hstep).
    rewrite filter_cons. case_decide as Ht.
    + exists r2, (v :: values). split; [done|].
      split; [by constructor|]. by rewrite <-app_assoc in Hobj2.
    + exists r2, values. by repeat split.
Qed.

End Loop.

Lemma all_children_return (cs : list Element) :
  Forall (λ c, ∃ v, returns_entry recursive_parse_xml_to_dict c v) cs.
Proof.
  apply Forall_forall. intros c _.
  apply XmlParser.recursive_parse_xml_to_dict_total.
Qed.

(** X1: the parser raises on no tree: it returns a mapping with the one
    key [tag xml], whose value is the text of the node ([None] without
    a text) if the node has no children and a mapping otherwise. *)
Theorem parser_never_raises (xml : Element) :
  ∃ v : pyval,
    recursive_parse_xml_to_dict xml = Some (PDict {[ tag xml := v ]}) ∧
    match children xml with
    | [] => v = text_value (text xml)
    | _ => ∃ result, v = PDict result
    end.
Proof.
  destruct xml as [t tx [|c cs]]; [by eexists|].
  destruct (XmlParser.parse_children_total _ (c :: cs)
              (all_children_return (c :: cs)) ∅
              XmlParser.object_is_list_empty) as (result & Hloop & _).
  exists (PDict result).
  rewrite XmlParser.recursive_parse_inner, Hloop. split; [done|].
  simpl. eauto.
Qed.

(** X2: the keys of the mapping of a node with children are the tags of
    its children, no more and no less. *)
Theorem keys_are_child_tags (t : string) (tx : option string)
    (c : Element) (cs : list Element) :
  ∃ result : gmap string pyval,
    recursive_parse_xml_to_dict (Elem t tx (c :: cs))
      = Some (PDict {[ t := PDict result ]}) ∧
    ∀ k : string, is_Some (result !! k) ↔ k ∈ tag <$> c :: cs.
Proof.
  destruct (parse_children_keys _ (c :: cs) (all_children_return (c :: cs))
              ∅ XmlParser.object_is_list_empty)
    as (result & Hloop & _ & Hkeys).
  exists result. rewrite XmlParser.recursive_parse_inner, Hloop.
  split; [done|]. intros k. rewrite Hkeys, lookup_empty.
  split; [intros [[? [=]]|Hk]; exact Hk|auto].
Qed.

(** X3: under the key "object" the mapping of a node holds the values
    parsed from all its children of that tag, in document order, as one
    list, however many there are and whatever other children stand
    between them; the key is missing when there is no such child. *)
Theorem objects_accumulate (t : string) (tx : option string)
    (c : Element) (cs : list Element) :
  ∃ (result : gmap string pyval) (values : list pyval),
    recursive_parse_xml_to_dict (Elem t tx (c :: cs))
      = Some (PDict {[ t := PDict result ]}) ∧
    Forall2 parsed_value
      (filter (λ child, tag child = "object") (c :: cs)) values ∧
    (values = [] → result !! "object" = None) ∧
    (values ≠ [] → result !! "object" = Some (PList values)).
Proof.
  destruct (parse_children_objects _ (c :: cs)
              (all_children_return (c :: cs)) ∅ [])
    as (result & values & Hloop & Hvalues & Hobj).
  { apply lookup_empty. }
  exists result, values.
  rewrite XmlParser.recursive_parse_inner, Hloop. split; [done|].
  split; [exact Hvalues|]. simpl in Hobj.
  destruct values; [by split|]. by split.
Qed.

Example objects_between_others :
  recursive_parse_xml_to_dict
    (Elem "annotation" None
       [Elem "object" None [Elem "name" (Some "cat") []];
        Elem "filename" (Some "1.jpg") [];
        Elem "object" None [Elem "name" (Some "dog") []]])
  = Some (PDict {[ "annotation" := PDict
       (<["filename" := PStr "1.jpg"]>
          {[ "object" := PList [PDict {[ "name" := PStr "cat" ]};
                                PDict {[ "name" := PStr "dog" ]}] ]}) ]}).
Proof. reflexivity. Qed.

End XmlTree.

(** ** The feature encoders *)

Module Features.

Lemma Int64List_fits (value : list Z) :
  forallb is_int64 value = true → Int64List value = Some value.
Proof. intros Hfit. unfold Int64List. by rewrite Hfit. Qed.

(** An integer that does not fit is refused, not wrapped around. *)
Example int64_feature_overflow : int64_feature (2 ^ 63) = None.
Proof. reflexivity. Qed.

(** The narrowing leaves a list as it is exactly when it leaves each of
    its elements as it is. *)
Lemma FloatList_fixed (value : list float) :
  FloatList value = value ↔ Forall fits_float32 value.
Proof.
  unfold FloatList, fits_float32.
  induction value as [|x value IH]; [done|].
  rewrite fmap_cons, Forall_cons, <-IH. split.
  - by intros [= ? ?].
  - by intros [-> ->].
Qed.

(** What is read back for the decimal 0.1. *)
Example to_float32_one_tenth : to_float32 one_tenth = 0x1.99999ap-4%float.
Proof. reflexivity. Qed.

Lemma one_tenth_narrowed : to_float32 one_tenth ≠ one_tenth.
Proof.
  intros Heq. apply (f_equal FloatOps.Prim2SF) in Heq.
  vm_compute in Heq. discriminate Heq.
Qed.

(** C7, as the code has it: on a non-empty input of the advertised
    type, each of the five encoders returns the container of its kind.
    The list read back from the container is the input itself for the
    integers and the byte strings: the singleton of the value for the
    two scalar encoders, the given sequence for the list encoders.  For
    the floats it is the given sequence with each element narrowed to
    32 bits, which is the input itself exactly when every element fits
    a 32-bit float. *)
Theorem encoders_keep_input
    (i : Z) (ints : list Z) (b : list byte) (bs : list (list byte))
    (fs : list float) :
  is_int64 i = true → forallb is_int64 ints = true →
  ints ≠ [] → bs ≠ [] → fs ≠ [] →
  (∃ f : Feature,
     int64_feature i = Some f ∧
     WhichOneof f = "int64_list" ∧ int64_list_value f = [i]) ∧
  (∃ f : Feature,
     int64_list_feature ints = Some f ∧
     WhichOneof f = "int64_list" ∧ int64_list_value f = ints) ∧
  (WhichOneof (bytes_feature b) = "bytes_list" ∧
   bytes_list_value (bytes_feature b) = [b]) ∧
  (WhichOneof (bytes_list_feature bs) = "bytes_list" ∧
   bytes_list_value (bytes_list_feature bs) = bs) ∧
  (WhichOneof (float_list_feature fs) = "float_list" ∧
   float_list_value (float_list_feature fs) = to_float32 <$> fs ∧
   (float_list_value (float_list_feature fs) = fs ↔
    Forall fits_float32 fs)).
Proof.
  intros Hi His _ _ _. split; [|split].
  - exists (int64_list [i]). unfold int64_feature.
    rewrite Int64List_fits; [done|]. simpl. by rewrite Hi.
  - exists (int64_list ints). unfold int64_list_feature.
    by rewrite Int64List_fits.
  - do 2 (split; [done|]). split; [done|]. split; [done|].
    apply FloatList_fixed.
Qed.

(** C7 at an input of each kind, the floats fitting 32 bits. *)
Lemma encoders_keep_input_witness :
  (∃ f : Feature,
     int64_feature 7 = Some f ∧
     WhichOneof f = "int64_list" ∧ int64_list_value f = [7]) ∧
  (∃ f : Feature,
     int64_list_feature [1; -2; 3] = Some f ∧
     WhichOneof f = "int64_list" ∧ int64_list_value f = [1; -2; 3]) ∧
  (WhichOneof (bytes_feature [x61; x62]) = "bytes_list" ∧
   bytes_list_value (bytes_feature [x61; x62]) = [[x61; x62]]) ∧
  (WhichOneof (bytes_list_feature [[x61]; []]) = "bytes_list" ∧
   bytes_list_value (bytes_list_feature [[x61]; []]) = [[x61]; []]) ∧
  (WhichOneof (float_list_feature [0.5%float; 2%float]) = "float_list" ∧
   float_list_value (float_list_feature [0.5%float; 2%float])
   = to_float32 <$> [0.5%float; 2%float] ∧
   (float_list_value (float_list_feature [0.5%float; 2%float])
    = [0.5%float; 2%float] ↔
    Forall fits_float32 [0.5%float; 2%float])).
Proof.
  apply (encoders_keep_input 7 [1; -2; 3] [x61; x62] [[x61]; []]
           [0.5%float; 2%float]).
  - reflexivity.
  - reflexivity.
  - discriminate.
  - discriminate.
  - discriminate.
Defined.

(** C7, as the specification words it, fails for the float encoder: the
    list read back for the input 0.1 is not that input but its nearest
    32-bit float, 0.100000001490116. *)
Lemma float_list_feature_narrows :
  float_list_value (float_list_feature [one_tenth])
  = [0x1.99999ap-4%float] ∧
  float_list_value (float_list_feature [one_tenth]) ≠ [one_tenth].
Proof.
  split; [reflexivity|]. intros Heq. apply one_tenth_narrowed.
  exact (f_equal (λ l, default one_tenth (head l)) Heq).
Qed.

End Features.

(** ** The identifier list reader *)

Module ExamplesList.

Lemma str_app_cons (c : ascii) (s r : string) :
  String c s +:+ r = String c (s +:+ r).
Proof. reflexivity. Qed.

Lemma str_app_empty_l (s : string) : "" +:+ s = s.
Proof. reflexivity. Qed.

Lemma str_app_empty_r (s : string) : s +:+ "" = s.
Proof.
  induction s as [|c s IH]; [done|]. by rewrite str_app_cons, IH.
Qed.

Lemma str_app_assoc (s1 s2 s3 : string) : (s1 +:+ s2) +:+ s3 = s1 +:+ s2 +:+ s3.
Proof.
  induction s1 as [|c s1 IH]; [done|]. by rewrite !str_app_cons, IH.
Qed.

(** *** [split] and [before] *)

Lemma split_first (sep : ascii) (s : string) :
  split sep s !! 0%nat = Some (before sep s).
Proof.
  induction s as [|c s IH]; simpl; [done|].
  case_decide; [done|].
  destruct (split sep s) as [|piece pieces]; [done|].
  simpl in *. by injection IH as ->.
Qed.

Lemma before_cut (sep : ascii) (s : string) :
  s = before sep s ∨ ∃ rest, s = before sep s +:+ String sep rest.
Proof.
  induction s as [|c s [IH|[rest IH]]]; simpl; [by left|..].
  - case_decide as Hc; [right; exists s; by rewrite Hc|].
    left. by rewrite <-IH.
  - case_decide as Hc; [right; exists s; by rewrite Hc|].
    right. exists rest. by rewrite str_app_cons, <-IH.
Qed.

(** *** Whitespace *)

Lemma lstrip_blank (s : string) : blank s = true → lstrip s = "".
Proof.
  induction s as [|c s IH]; simpl; [done|].
  destruct (isspace c); simpl; [exact IH|discriminate].
Qed.

Lemma strip_blank (s : string) : blank s = true → strip s = "".
Proof. intros Hs. unfold strip. by rewrite lstrip_blank. Qed.

Lemma rstrip_cut (s : string) :
  ∃ w, s = rstrip s +:+ w ∧ blank w = true.
Proof.
  induction s as [|c s (w & IH & Hw)]; simpl; [by exists ""|].
  destruct (rstrip s) as [|d r] eqn:Hr.
  - rewrite str_app_empty_l in IH. subst w. destruct (isspace c) eqn:Hc.
    + exists (String c s). split; [done|]. simpl. by rewrite Hc.
    + exists s. by rewrite str_app_cons, str_app_empty_l.
  - exists w. split; [|done]. by rewrite str_app_cons, <-IH.
Qed.

Lemma take_token_blank (w : string) : blank w = true → take_token w = "".
Proof.
  destruct w as [|c w]; simpl; [done|]. by destruct (isspace c).
Qed.

Lemma take_token_solid (e r : string) :
  solid e = true → take_token (e +:+ r) = e +:+ take_token r.
Proof.
  induction e as [|c e IH]; [done|]. rewrite !str_app_cons. simpl.
  destruct (isspace c); simpl; [discriminate|]. intros He. by rewrite IH.
Qed.

(** The field before the first space is the first token of the line
    as soon as no whitespace character is left in it. *)
Lemma before_space_first_token (line : string) :
  solid (before space (strip line)) = true →
  before space (strip line) = first_token line.
Proof.
  unfold strip, first_token. set (t := lstrip line). intros He.
  destruct (rstrip_cut t) as (w & Ht & Hw).
  destruct (before_cut space (rstrip t)) as [Hcut|[rest Hcut]].
  - rewrite Ht at 2. rewrite Hcut at 2. rewrite take_token_solid by done.
    by rewrite take_token_blank, str_app_empty_r.
  - rewrite Ht at 2. rewrite Hcut at 2. rewrite str_app_assoc, str_app_cons.
    rewrite take_token_solid by done. simpl. by rewrite str_app_empty_r.
Qed.

(** *** Lines *)

Lemma readlines_nil (content : string) :
  readlines content = [] ↔ without carriage_return content = "".
Proof.
  induction content as [|c rest IH]; simpl; [done|].
  destruct (decide (c = newline)) as [->|Hnl]; [done|].
  destruct (decide (c = carriage_return)) as [->|Hcr]; [exact IH|].
  by destruct (readlines rest).
Qed.

(** The reader gives one line per line feed, and one more for what is
    left after the last line feed once the carriage returns are out. *)
Lemma readlines_length (content : string) :
  length (readlines content) = line_count (without carriage_return content).
Proof.
  induction content as [|c rest IH]; simpl; [done|].
  destruct (decide (c = newline)) as [->|Hnl].
  { simpl. by rewrite IH. }
  destruct (decide (c = carriage_return)) as [->|Hcr]; [exact IH|].
  simpl. rewrite decide_False by done.
  destruct (readlines rest) as [|line lines] eqn:Hrest.
  - apply readlines_nil in Hrest. by rewrite Hrest.
  - destruct (without carriage_return rest) eqn:Hwithout; [|by rewrite <-IH].
    apply readlines_nil in Hwithout. by rewrite Hwithout in Hrest.
Qed.

Lemma without_free (c : ascii) (s : string) :
  occurs c s = false → without c s = s.
Proof.
  induction s as [|d s IH]; simpl; [done|].
  case_decide; [done|]. intros Hs. by rewrite IH.
Qed.

(** What the reader returns on a readable text file. *)
Lemma read_examples_list_fields (fs : gmap string entry)
    (path content : string) :
  fs !! path = Some (TextFile content) →
  read_examples_list fs path
  = Some ((λ line, before space (strip line)) <$> readlines content).
Proof.
  intros Hfile. unfold read_examples_list, GFile_readlines.
  rewrite Hfile. simpl.
  apply mapM_Some_2. apply Forall2_fmap_r, Forall_Forall2_diag.
  apply Forall_forall. intros line _. apply split_first.
Qed.

(** C5, as the code has it: on a readable text file the reader
    returns, one entry per line that it reads and in the order of the
    file, the text that comes before the first space character of the
    line once the whitespace at its two ends is stripped, whatever
    follows being ignored.  An entry without any whitespace character
    in it is the first whitespace-delimited token of its line.  On the
    file of §8 the result is a, b, c. *)
Theorem read_examples_list_first_field (fs : gmap string entry)
    (path content : string) :
  fs !! path = Some (TextFile content) →
  read_examples_list fs path
  = Some ((λ line, before space (strip line)) <$> readlines content) ∧
  (∀ (i : nat) (line : string),
     readlines content !! i = Some line →
     solid (before space (strip line)) = true →
     before space (strip line) = first_token line) ∧
  (content = three_lines →
   read_examples_list fs path = Some ["a"; "b"; "c"]).
Proof.
  intros Hfile. split; [by apply read_examples_list_fields|]. split.
  - intros i line _. apply before_space_first_token.
  - intros ->. by rewrite (read_examples_list_fields fs path three_lines).
Qed.

(** C5 on the file of §8. *)
Lemma read_examples_list_first_field_witness :
  read_examples_list {[ "trainval.txt" := TextFile three_lines ]}
    "trainval.txt"
  = Some ((λ line, before space (strip line)) <$> readlines three_lines) ∧
  (∀ (i : nat) (line : string),
     readlines three_lines !! i = Some line →
     solid (before space (strip line)) = true →
     before space (strip line) = first_token line) ∧
  (three_lines = three_lines →
   read_examples_list {[ "trainval.txt" := TextFile three_lines ]}
     "trainval.txt"
   = Some ["a"; "b"; "c"]).
Proof.
  apply (read_examples_list_first_field
           {[ "trainval.txt" := TextFile three_lines ]}
           "trainval.txt" three_lines).
  reflexivity.
Defined.

(** C5, as the specification words it, fails on a line whose tokens a
    tab separates: the entry is the whole line, not its first
    whitespace-delimited token. *)
Lemma read_examples_list_tab_line :
  read_examples_list {[ "trainval.txt" := TextFile tab_line ]} "trainval.txt"
  = Some ["a" +:+ String tab "1"] ∧
  first_token <$> readlines tab_line = ["a"] ∧
  read_examples_list {[ "trainval.txt" := TextFile tab_line ]} "trainval.txt"
  ≠ Some (first_token <$> readlines tab_line).
Proof. split; [reflexivity|]. split; [reflexivity|]. discriminate. Qed.

(** The reader leaves the carriage returns out. *)
Example read_examples_list_returns :
  read_examples_list
    {[ "trainval.txt" :=
         TextFile ("a" +:+ String carriage_return
                     ("b 2" +:+ String newline "")) ]}
    "trainval.txt"
  = Some ["ab"].
Proof. reflexivity. Qed.

(** C10, as the code has it: on a readable text file the reader
    returns one entry per line that it reads, whatever the lines hold;
    the entry of a line made of whitespace only is the empty string.
    The lines that it reads are those of the file with its carriage
    returns left out: one per line feed, and one more for what is left
    after the last line feed. *)
Theorem read_examples_list_one_per_line (fs : gmap string entry)
    (path content : string) :
  fs !! path = Some (TextFile content) →
  ∃ ids : list string,
    read_examples_list fs path = Some ids ∧
    length ids = length (readlines content) ∧
    length ids = line_count (without carriage_return content) ∧
    (occurs carriage_return content = false →
     length ids = line_count content) ∧
    (∀ i : nat, is_Some (readlines content !! i) ↔ is_Some (ids !! i)) ∧
    (∀ (i : nat) (line : string),
       readlines content !! i = Some line → blank line = true →
       ids !! i = Some "").
Proof.
  intros Hfile. eexists. split; [by apply read_examples_list_fields|].
  rewrite length_fmap. split; [done|]. split; [apply readlines_length|].
  split; [|split].
  - intros Hfree. by rewrite readlines_length, without_free.
  - intros i. rewrite list_lookup_fmap. by rewrite fmap_is_Some.
  - intros i line Hline Hblank. rewrite list_lookup_fmap, Hline. simpl.
    by rewrite strip_blank.
Qed.

(** C10 on a file with an empty second line and spaces on its third
    one: four lines, four entries. *)
Lemma read_examples_list_one_per_line_witness :
  ∃ ids : list string,
    read_examples_list {[ "val.txt" := TextFile sparse_lines ]} "val.txt"
    = Some ids ∧
    length ids = length (readlines sparse_lines) ∧
    length ids = line_count (without carriage_return sparse_lines) ∧
    (occurs carriage_return sparse_lines = false →
     length ids = line_count sparse_lines) ∧
    (∀ i : nat, is_Some (readlines sparse_lines !! i) ↔ is_Some (ids !! i)) ∧
    (∀ (i : nat) (line : string),
       readlines sparse_lines !! i = Some line → blank line = true →
       ids !! i = Some "").
Proof.
  apply (read_examples_list_one_per_line
           {[ "val.txt" := TextFile sparse_lines ]} "val.txt" sparse_lines).
  reflexivity.
Defined.

(** C10, as the specification words it, fails on a file whose last line
    holds a carriage return and nothing else: the line is made of
    whitespace only, and yet it is skipped, so that the result is
    shorter than the file has lines. *)
Lemma read_examples_list_skips_return :
  blank lone_return = true ∧
  line_count lone_return = 1%nat ∧
  read_examples_list {[ "val.txt" := TextFile lone_return ]} "val.txt"
  = Some [] ∧
  ¬ (∃ ids : list string,
       read_examples_list {[ "val.txt" := TextFile lone_return ]} "val.txt"
       = Some ids ∧
       length ids = line_count lone_return).
Proof.
  split; [reflexivity|]. split; [reflexivity|]. split; [reflexivity|].
  intros (ids & [= <-] & Hlength). discriminate Hlength.
Qed.

Example read_examples_list_sparse :
  read_examples_list {[ "val.txt" := TextFile sparse_lines ]} "val.txt"
  = Some ["a"; ""; ""; "c"].
Proof. reflexivity. Qed.

(** A path that leads nowhere raises, and so does a file that is no
    text; a directory reads as an empty list. *)
Example read_examples_list_missing :
  read_examples_list ∅ "trainval.txt" = None.
Proof. reflexivity. Qed.

Example read_examples_list_binary :
  read_examples_list {[ "trainval.txt" := BinaryFile ]} "trainval.txt" = None.
Proof. reflexivity. Qed.

Example read_examples_list_directory :
  read_examples_list {[ "VOC2012" := Directory ]} "VOC2012" = Some [].
Proof. reflexivity. Qed.

End ExamplesList.

(** ** More on the identifier list reader *)

Module Identifiers.

Lemma isspace_not_newline (c : ascii) : isspace c = false → c ≠ newline.
Proof. by intros Hc ->. Qed.

Lemma isspace_not_space (c : ascii) : isspace c = false → c ≠ space.
Proof. by intros Hc ->. Qed.

(** *** Characters that an identifier cannot hold *)

Lemma occurs_before_sep (sep : ascii) (s : string) :
  occurs sep (before sep s) = false.
Proof.
  induction s as [|c s IH]; simpl; [done|].
  case_decide; [done|]. simpl. by rewrite decide_False.
Qed.

Lemma occurs_before (c sep : ascii) (s : string) :
  occurs c s = false → occurs c (before sep s) = false.
Proof.
  induction s as [|d s IH]; simpl; [done|].
  destruct (decide (d = c)); [done|]. intros Hs.
  case_decide; [done|]. simpl. rewrite decide_False by done. by apply IH.
Qed.

Lemma readlines_newline_last (content line : string) :
  line ∈ readlines content → newline_last line = true.
Proof.
  revert line. induction content as [|c rest IH]; intros line; simpl.
  { by intros ?%elem_of_nil. }
  case_decide as Hc.
  { intros [->|Hline]%elem_of_cons; [done|by apply IH]. }
  case_decide as Hcr; [by apply IH|].
  destruct (readlines rest) as [|first lines].
  - by intros ->%list_elem_of_singleton.
  - intros [->|Hline]%elem_of_cons.
    + destruct first as [|d first]; [done|].
      change (negb (bool_decide (c = newline))
              && newline_last (String d first) = true).
      rewrite bool_decide_false by done.
      apply IH, list_elem_of_here.
    + by apply IH, list_elem_of_further.
Qed.

Lemma newline_last_tail (c : ascii) (s : string) :
  newline_last (String c s) = true → newline_last s = true.
Proof.
  destruct s as [|d s]; [done|].
  change (negb (bool_decide (c = newline)) && newline_last (String d s) = true
          → newline_last (String d s) = true).
  by intros [_ ?]%andb_prop.
Qed.

Lemma newline_last_head (c d : ascii) (s : string) :
  newline_last (String c (String d s)) = true → c ≠ newline.
Proof.
  change (negb (bool_decide (c = newline)) && newline_last (String d s) = true
          → c ≠ newline).
  intros [Hc _]%andb_prop. by apply negb_true_iff, bool_decide_eq_false in Hc.
Qed.

Lemma lstrip_newline_last (s : string) :
  newline_last s = true → newline_last (lstrip s) = true.
Proof.
  induction s as [|c s IH]; [done|]. intros Hs.
  cbn [lstrip]. destruct (isspace c); [|done].
  by apply IH, (newline_last_tail c).
Qed.

Lemma rstrip_no_newline (s : string) :
  newline_last s = true → occurs newline (rstrip s) = false.
Proof.
  induction s as [|c s IH]; [done|]. intros Hs.
  pose proof (IH (newline_last_tail c s Hs)) as Hrest.
  cbn [rstrip]. destruct (rstrip s) as [|d r] eqn:Hr.
  - destruct (isspace c) eqn:Hc; [done|].
    simpl. by rewrite decide_False by by apply isspace_not_newline.
  - destruct s as [|e s]; [done|].
    cbn [occurs]. rewrite decide_False by by eapply newline_last_head.
    exact Hrest.
Qed.

Lemma lstrip_no_leading_space (s : string) : leading_space (lstrip s) = false.
Proof.
  induction s as [|c s IH]; [done|]. cbn [lstrip].
  by destruct (isspace c) eqn:Hc.
Qed.

Lemma rstrip_leading_space (s : string) :
  leading_space s = false → leading_space (rstrip s) = false.
Proof.
  destruct s as [|c s]; [done|]. cbn [rstrip leading_space]. intros Hc.
  destruct (rstrip s); [by rewrite Hc|done].
Qed.

Lemma before_leading_space (sep : ascii) (s : string) :
  leading_space s = false → leading_space (before sep s) = false.
Proof. destruct s as [|c s]; [done|]. simpl. by case_decide. Qed.

(** *** Lines that start with an identifier *)

Lemma occurs_app (c : ascii) (s r : string) :
  occurs c (s +:+ r) = occurs c s || occurs c r.
Proof.
  induction s as [|d s IH]; [done|].
  rewrite ExamplesList.str_app_cons. simpl. by case_decide.
Qed.

Lemma solid_no (c : ascii) (s : string) :
  isspace c = true → solid s = true → occurs c s = false.
Proof.
  intros Hc. induction s as [|d s IH]; simpl; [done|].
  intros [Hd Hs]%andb_prop. apply negb_true_iff in Hd.
  rewrite decide_False by congruence. by apply IH.
Qed.

Lemma without_app (c : ascii) (s r : string) :
  without c (s +:+ r) = without c s +:+ without c r.
Proof.
  induction s as [|d s IH]; [done|].
  rewrite ExamplesList.str_app_cons. simpl. case_decide; [done|].
  by rewrite ExamplesList.str_app_cons, IH.
Qed.

Lemma occurs_without (c d : ascii) (s : string) :
  occurs c s = false → occurs c (without d s) = false.
Proof.
  induction s as [|e s IH]; simpl; [done|].
  destruct (decide (e = c)); [done|]. intros Hs.
  case_decide; [by apply IH|]. simpl. rewrite decide_False by done.
  by apply IH.
Qed.

Lemma blank_without (c : ascii) (s : string) :
  blank s = true → blank (without c s) = true.
Proof.
  induction s as [|d s IH]; simpl; [done|].
  intros [Hd Hs]%andb_prop. case_decide; [by apply IH|].
  simpl. by rewrite Hd, IH.
Qed.

Lemma line_tail_without (tail : string) :
  line_tail tail = true → line_tail (without carriage_return tail) = true.
Proof.
  unfold line_tail. intros [Hnl Hshape]%andb_prop.
  apply negb_true_iff in Hnl. rewrite occurs_without by done. simpl.
  apply orb_prop in Hshape as [Hblank|Hspace].
  - by rewrite blank_without.
  - destruct tail as [|c tail]; [done|].
    apply bool_decide_eq_true in Hspace as ->. simpl.
    by rewrite orb_true_r.
Qed.

Lemma readlines_line (body rest : string) :
  occurs newline body = false →
  readlines (body +:+ String newline rest)
  = (without carriage_return body +:+ String newline "") :: readlines rest.
Proof.
  induction body as [|c body IH].
  - intros _. by rewrite !ExamplesList.str_app_empty_l.
  - simpl. case_decide as Hc; [done|]. intros Hbody.
    case_decide as Hcr; [by apply IH|].
    rewrite ExamplesList.str_app_cons. by rewrite IH.
Qed.

Lemma rstrip_blank (s : string) : blank s = true → rstrip s = "".
Proof.
  induction s as [|c s IH]; simpl; [done|].
  intros [Hc Hs]%andb_prop. by rewrite IH, Hc.
Qed.

Lemma blank_app (s r : string) :
  blank s = true → blank r = true → blank (s +:+ r) = true.
Proof.
  induction s as [|c s IH]; [done|]. rewrite ExamplesList.str_app_cons.
  simpl. intros [-> Hs]%andb_prop Hr. by apply IH.
Qed.

Lemma rstrip_solid_app (id r : string) :
  solid id = true → rstrip (id +:+ r) = id +:+ rstrip r.
Proof.
  induction id as [|c id IH]; [done|]. simpl.
  intros [Hc Hid]%andb_prop. apply negb_true_iff in Hc.
  rewrite !ExamplesList.str_app_cons. cbn [rstrip]. rewrite IH by done.
  destruct (id +:+ rstrip r); [by rewrite Hc|done].
Qed.

Lemma before_solid_app (id u : string) :
  solid id = true → before space (id +:+ u) = id +:+ before space u.
Proof.
  induction id as [|c id IH]; [done|]. simpl.
  intros [Hc Hid]%andb_prop. apply negb_true_iff in Hc.
  rewrite !ExamplesList.str_app_cons. simpl.
  rewrite decide_False by by apply isspace_not_space. by rewrite IH.
Qed.

Lemma lstrip_identifier (id r : string) :
  identifier id = true → lstrip (id +:+ r) = id +:+ r.
Proof.
  unfold identifier. intros [Hid Hne]%andb_prop.
  destruct id as [|c id]; [done|]. simpl in Hid.
  apply andb_prop in Hid as [Hc _]. apply negb_true_iff in Hc.
  rewrite ExamplesList.str_app_cons. simpl. by rewrite Hc.
Qed.

Lemma before_rstrip_tail (tail : string) :
  line_tail tail = true →
  before space (rstrip (tail +:+ String newline "")) = "".
Proof.
  unfold line_tail. intros [_ [Hblank|Hspace]%orb_prop]%andb_prop.
  - by rewrite rstrip_blank by by apply blank_app.
  - destruct tail as [|c tail]; [done|].
    apply bool_decide_eq_true in Hspace as ->.
    rewrite ExamplesList.str_app_cons. cbn [rstrip].
    by destruct (rstrip _).
Qed.

(** The entry of a line that an identifier starts. *)
Lemma line_entry (id tail : string) :
  identifier id = true → line_tail tail = true →
  before space (strip (id +:+ tail +:+ String newline "")) = id.
Proof.
  intros Hid Htail. unfold strip. rewrite lstrip_identifier by done.
  apply andb_prop in Hid as [Hid _].
  rewrite rstrip_solid_app, before_solid_app by done.
  by rewrite before_rstrip_tail, ExamplesList.str_app_empty_r.
Qed.

Lemma examples_file_lines (examples : list (string * string)) :
  Forall (λ e, identifier e.1 && line_tail e.2 = true) examples →
  (λ line, before space (strip line)) <$> readlines (examples_file examples)
  = fst <$> examples.
Proof.
  induction 1 as [|[id tail] rest [Hid Htail]%andb_prop _ IH]; [done|].
  cbn [examples_file]. rewrite <-ExamplesList.str_app_assoc.
  assert (solid id = true) as Hsolid by by apply andb_prop in Hid as [? _].
  rewrite readlines_line.
  - rewrite fmap_cons, IH, without_app.
    rewrite (ExamplesList.without_free carriage_return id)
      by by apply solid_no.
    rewrite ExamplesList.str_app_assoc. simpl.
    by rewrite line_entry by by try apply line_tail_without.
  - rewrite occurs_app, (solid_no newline id) by done. simpl.
    unfold line_tail in Htail. apply andb_prop in Htail as [Hnl _].
    by apply negb_true_iff in Hnl.
Qed.

(** X5: on a readable text file the reader returns the empty list
    exactly when the file holds nothing but carriage returns, and so
    when it is empty; a file of one line feed already gives one
    entry. *)
Theorem read_examples_list_empty (fs : gmap string entry)
    (path content : string) :
  fs !! path = Some (TextFile content) →
  (read_examples_list fs path = Some [] ↔
   without carriage_return content = "").
Proof.
  intros Hfile.
  rewrite (ExamplesList.read_examples_list_fields fs path content Hfile).
  rewrite <-ExamplesList.readlines_nil. split.
  - intros [= Hnil]. by apply fmap_nil_inv in Hnil.
  - by intros ->.
Qed.

Lemma read_examples_list_empty_witness :
  read_examples_list {[ "trainval.txt" := TextFile lone_return ]}
    "trainval.txt" = Some []
  ↔ without carriage_return lone_return = "".
Proof.
  apply (read_examples_list_empty {[ "trainval.txt" := TextFile lone_return ]}
           "trainval.txt" lone_return).
  reflexivity.
Defined.

(** X6: no identifier that the reader returns holds a space or a line
    feed, and none begins with a whitespace character. *)
Theorem identifiers_are_clean (fs : gmap string entry)
    (path : string) (ids : list string) (id : string) :
  read_examples_list fs path = Some ids → id ∈ ids →
  occurs space id = false ∧ occurs newline id = false ∧
  leading_space id = false.
Proof.
  intros Hread Hid.
  destruct (fs !! path) as [[|content|]|] eqn:Hfile.
  - unfold read_examples_list, GFile_readlines in Hread.
    rewrite Hfile in Hread. injection Hread as <-.
    by apply elem_of_nil in Hid.
  - rewrite (ExamplesList.read_examples_list_fields fs path content Hfile)
      in Hread.
    injection Hread as <-.
    apply list_elem_of_fmap in Hid as (line & -> & Hline).
    split; [apply occurs_before_sep|]. split.
    + apply occurs_before. unfold strip.
      apply rstrip_no_newline, lstrip_newline_last.
      by eapply readlines_newline_last.
    + apply before_leading_space. unfold strip.
      apply rstrip_leading_space, lstrip_no_leading_space.
  - unfold read_examples_list, GFile_readlines in Hread.
    by rewrite Hfile in Hread.
  - unfold read_examples_list, GFile_readlines in Hread.
    by rewrite Hfile in Hread.
Qed.

Lemma identifiers_are_clean_witness :
  occurs space "b" = false ∧ occurs newline "b" = false ∧
  leading_space "b" = false.
Proof.
  apply (identifiers_are_clean {[ "trainval.txt" := TextFile three_lines ]}
           "trainval.txt" ["a"; "b"; "c"] "b").
  - reflexivity.
  - apply list_elem_of_further, list_elem_of_here.
Defined.

(** X7: a list file written with one example per line, each line an
    identifier (not empty, free of whitespace) followed by nothing but
    whitespace or by a space and any text without a line feed, and
    ended by a line feed, is read back as the identifiers, in order. *)
Theorem read_examples_list_written (fs : gmap string entry)
    (path : string) (examples : list (string * string)) :
  Forall (λ e, identifier e.1 && line_tail e.2 = true) examples →
  fs !! path = Some (TextFile (examples_file examples)) →
  read_examples_list fs path = Some (fst <$> examples).
Proof.
  intros Hexamples Hfile.
  rewrite (ExamplesList.read_examples_list_fields _ _ _ Hfile).
  by rewrite examples_file_lines.
Qed.

Lemma read_examples_list_written_witness :
  read_examples_list
    {[ "val.txt" := TextFile (examples_file
         [("2007_000027", " 1"); ("2007_000032", String carriage_return "");
          ("2007_000033", "")]) ]}
    "val.txt"
  = Some (fst <$> [("2007_000027", " 1");
                   ("2007_000032", String carriage_return "");
                   ("2007_000033", "")]).
Proof.
  apply read_examples_list_written.
  - repeat constructor.
  - reflexivity.
Defined.

End Identifiers.

(** ** The dataset pipeline *)

Module Pipeline.

(** *** Arithmetic of the shard index *)

(** How far the next kept element is: the offset of the first index at
    or after [s] that is [k] modulo [n]. *)
Lemma offset_mod (n k s : Z) :
  0 ≤ k < n →
  (k - s) mod n
  = if decide (s mod n ≤ k) then k - s mod n else k - s mod n + n.
Proof.
  intros Hk. assert (0 ≤ s mod n < n) as Hs by (apply Z.mod_pos_bound; lia).
  rewrite Zminus_mod, (Z.mod_small k n) by lia.
  case_decide.
  - apply Z.mod_small. lia.
  - rewrite <-(Z.mod_add _ 1 n) by lia. rewrite Z.mod_small; lia.
Qed.

Lemma succ_mod (n s : Z) :
  0 < n →
  (s + 1) mod n = if decide (s mod n + 1 = n) then 0 else s mod n + 1.
Proof.
  intros Hn. assert (0 ≤ s mod n < n) as Hs by (apply Z.mod_pos_bound; lia).
  rewrite Zplus_mod. case_decide as Hwrap.
  - destruct (decide (n = 1)) as [->|Hn1]; [by rewrite Z.mod_1_r|].
    rewrite (Z.mod_small 1 n) by lia. rewrite Hwrap. apply Z.mod_same. lia.
  - destruct (decide (n = 1)) as [->|Hn1]; [lia|].
    rewrite (Z.mod_small 1 n) by lia. apply Z.mod_small. lia.
Qed.

Lemma offset_here (n k s : Z) :
  0 ≤ k < n → s mod n = k →
  (k - s) mod n = 0 ∧ (k - (s + 1)) mod n = n - 1.
Proof.
  intros Hk Hs. rewrite !offset_mod by done. rewrite succ_mod by lia.
  repeat case_decide; lia.
Qed.

Lemma offset_later (n k s : Z) :
  0 ≤ k < n → s mod n ≠ k →
  0 < (k - s) mod n ∧ (k - (s + 1)) mod n = (k - s) mod n - 1.
Proof.
  intros Hk Hs. rewrite !offset_mod by done. rewrite succ_mod by lia.
  assert (0 ≤ s mod n < n) by (apply Z.mod_pos_bound; lia).
  repeat case_decide; lia.
Qed.

(** *** Sharding *)

Section Shard.

Context {A : Type}.
Variables num_shards index : Z.
Hypothesis index_in_range : 0 ≤ index < num_shards.

(** The elements kept from [next_index] on are those found every
    [num_shards] positions, starting at the first kept one. *)
Lemma shard_from_lookup (next_index : Z) (elems : list A) (j : nat) :
  shard_from num_shards index next_index elems !! j
  = elems !! (Z.to_nat ((index - next_index) mod num_shards)
              + j * Z.to_nat num_shards)%nat.
Proof.
  revert next_index j.
  induction elems as [|x elems IH]; intros s j; simpl; [done|].
  case_decide as Hs.
  - destruct (offset_here num_shards index s index_in_range Hs) as [-> Hnext].
    destruct j as [|j]; [done|].
    rewrite lookup_cons_ne_0 by done. rewrite IH, Hnext.
    replace (Z.to_nat 0 + S j * Z.to_nat num_shards)%nat
      with (S (Z.to_nat (num_shards - 1) + j * Z.to_nat num_shards)) by lia.
    done.
  - destruct (offset_later num_shards index s index_in_range Hs)
      as [Hpos Hnext].
    rewrite IH, Hnext.
    replace (Z.to_nat ((index - s) mod num_shards)
             + j * Z.to_nat num_shards)%nat
      with (S (Z.to_nat ((index - s) mod num_shards - 1)
               + j * Z.to_nat num_shards)) by lia.
    done.
Qed.

(** From the start of the sequence: the element [j] of the shard is the
    element [j * num_shards + index] of the sequence. *)
Lemma shard_lookup (elems : list A) (j : nat) :
  shard_from num_shards index 0 elems !! j
  = elems !! (j * Z.to_nat num_shards + Z.to_nat index)%nat.
Proof.
  rewrite shard_from_lookup, Z.sub_0_r, Z.mod_small by lia.
  f_equal. lia.
Qed.

Lemma elem_of_shard (elems : list A) (x : A) :
  x ∈ shard_from num_shards index 0 elems ↔
  ∃ j : nat, elems !! (j * Z.to_nat num_shards + Z.to_nat index)%nat = Some x.
Proof.
  rewrite list_elem_of_lookup. by setoid_rewrite shard_lookup.
Qed.

End Shard.

(** Every position belongs to the shard of its remainder. *)
Lemma position_shard (num_shards : Z) (i : nat) :
  0 < num_shards →
  let w := Z.of_nat (i mod Z.to_nat num_shards) in
  0 ≤ w < num_shards ∧
  i = ((i / Z.to_nat num_shards) * Z.to_nat num_shards + Z.to_nat w)%nat.
Proof.
  intros Hn w. subst w.
  assert (Z.to_nat num_shards ≠ 0)%nat as HN by lia.
  pose proof (Nat.mod_upper_bound i _ HN).
  pose proof (Nat.div_mod_eq i (Z.to_nat num_shards)).
  split; lia.
Qed.

(** Two shards never take the same position. *)
Lemma positions_apart (num_shards index other : Z) (j j' : nat) :
  0 ≤ index < num_shards → 0 ≤ other < num_shards → other ≠ index →
  (j * Z.to_nat num_shards + Z.to_nat index
   ≠ j' * Z.to_nat num_shards + Z.to_nat other)%nat.
Proof.
  intros Hi Ho Hne Heq.
  apply (f_equal (λ p, p mod Z.to_nat num_shards)%nat) in Heq.
  rewrite !(Nat.add_comm (_ * _)), !Nat.Div0.mod_add in Heq.
  rewrite !Nat.mod_small in Heq by lia. lia.
Qed.

(** *** What [read_dataset] returns *)

Lemma as_int32_fits (v : Z) : is_int32 v = true → as_int32 v = Some v.
Proof. intros Hv. unfold as_int32. by rewrite Hv. Qed.

Lemma read_dataset_filenames_given (matching_files : string → list string)
    (input_files : list string) :
  input_files ≠ [] →
  read_dataset_filenames matching_files input_files
  = Some (mjoin (matching_files <$> input_files)).
Proof. by destruct input_files. Qed.

Lemma read_dataset_filenames_inv (matching_files : string → list string)
    (input_files files : list string) :
  read_dataset_filenames matching_files input_files = Some files →
  input_files ≠ [] ∧ files = mjoin (matching_files <$> input_files).
Proof. destruct input_files; [done|]. by intros [= <-]. Qed.

Lemma worker_files_in_range (matching_files : string → list string)
    (input_files : list string) (num_workers worker_index : Z) :
  input_files ≠ [] → 0 ≤ worker_index < num_workers →
  worker_files matching_files input_files num_workers worker_index
  = Some (Finite (shard_from num_workers worker_index 0
                    (mjoin (matching_files <$> input_files)))).
Proof.
  intros Hfiles Hrange. unfold worker_files, read_dataset_shard.
  rewrite read_dataset_filenames_given by done. simpl.
  by rewrite decide_True.
Qed.

Lemma worker_files_inv (matching_files : string → list string)
    (input_files : list string) (num_workers worker_index : Z)
    (mine : list string) :
  worker_files matching_files input_files num_workers worker_index
    = Some (Finite mine) →
  0 ≤ worker_index < num_workers ∧
  mine = shard_from num_workers worker_index 0
           (mjoin (matching_files <$> input_files)).
Proof.
  unfold worker_files, read_dataset_shard.
  destruct (read_dataset_filenames _ _) as [files|] eqn:Hfiles; [|done].
  apply read_dataset_filenames_inv in Hfiles as [_ ->]. simpl.
  case_decide; [|done]. by intros [= <-].
Qed.

Section Built.

Variable matching_files : string → list string.
Context {Record_ Decoded : Type}.
Variable file_read_func : string → Dataset.t Record_.
Variable decode_func : Record_ → Decoded.
Variable input_files : list string.
Variable config : InputReader.

(** The pipeline of a call that builds one, with the successive
    bindings of [dataset] put inside one another. *)
Lemma read_dataset_composition (num_workers worker_index : Z) :
  builds_pipeline matching_files input_files config →
  read_dataset matching_files Record_ Decoded file_read_func decode_func
    input_files config num_workers worker_index
  = Some
      (Dataset.prefetch (prefetch_buffer_size config)
         (Dataset.map decode_func (num_readers config)
            (shuffle_if (shuffle config) (shuffle_buffer_size config)
               (Dataset.interleave file_read_func
                  (Z.min (num_readers config)
                     (tf_size (mjoin (matching_files <$> input_files))))
                  1
                  (shuffle_if (shuffle config)
                     (filenames_shuffle_buffer_size config)
                     (Dataset.repeat (or_None (num_epochs config))
                        (Dataset.shard num_workers worker_index
                           (Dataset.from_tensor_slices
                              (mjoin (matching_files <$> input_files)))))))))).
Proof.
  intros (Hfiles & Hreaders & Hsize). unfold read_dataset.
  rewrite read_dataset_filenames_given by done.
  cbn [mbind option_bind].
  rewrite (as_int32_fits _ Hsize). cbn [mbind option_bind].
  by rewrite (as_int32_fits _ Hreaders).
Qed.

(** No pipeline is built on any other call. *)
Lemma read_dataset_raises (num_workers worker_index : Z) :
  ¬ builds_pipeline matching_files input_files config →
  read_dataset matching_files Record_ Decoded file_read_func decode_func
    input_files config num_workers worker_index
  = None.
Proof.
  intros Hnot. unfold read_dataset.
  destruct input_files as [|p ps] eqn:Hfiles; [done|].
  rewrite read_dataset_filenames_given by done.
  cbn [mbind option_bind]. unfold as_int32.
  destruct (is_int32 (tf_size _)) eqn:Hsize; [|done].
  cbn [mbind option_bind].
  destruct (is_int32 (num_readers config)) eqn:Hreaders; [|done].
  destruct Hnot. by repeat split.
Qed.

Lemma stages_shuffle_if {A : Type} (enabled : bool) (buffer_size : Z)
    (dataset : Dataset.t A) :
  stages (shuffle_if enabled buffer_size dataset)
  = stages dataset ++ (if enabled then [Shuffle buffer_size true] else []).
Proof. destruct enabled; simpl; [done|by rewrite app_nil_r]. Qed.

Lemma or_None_spec (x : option Z) :
  or_None x = match x with
              | Some 0 | None => None
              | Some n => Some n
              end.
Proof. by destruct x as [[| |]|]. Qed.

(** The stages of the pipeline that a call builds. *)
Lemma read_dataset_stages (num_workers worker_index : Z)
    (dataset : Dataset.t Decoded) :
  read_dataset matching_files Record_ Decoded file_read_func decode_func
    input_files config num_workers worker_index = Some dataset →
  builds_pipeline matching_files input_files config ∧
  stages dataset
  = spec_stages config num_workers worker_index
      (tf_size (mjoin (matching_files <$> input_files))).
Proof.
  intros Hread.
  assert (builds_pipeline matching_files input_files config) as Hbuilds.
  { destruct (decide (input_files ≠ [])) as [Hfiles|Hfiles];
      [|by rewrite read_dataset_raises in Hread by by intros [? _]].
    destruct (is_int32 (num_readers config)) eqn:Hreaders;
      [|by rewrite read_dataset_raises in Hread
          by (intros (_ & ? & _); congruence)].
    destruct (is_int32 (tf_size (mjoin (matching_files <$> input_files))))
      eqn:Hsize;
      [|by rewrite read_dataset_raises in Hread
          by (intros (_ & _ & ?); congruence)].
    done. }
  split; [done|].
  rewrite read_dataset_composition in Hread by done.
  injection Hread as <-. cbn [stages].
  rewrite stages_shuffle_if. cbn [stages]. rewrite stages_shuffle_if.
  unfold spec_stages. rewrite <-or_None_spec. cbn [stages].
  by rewrite <-!app_assoc.
Qed.

(** The file paths of the pipeline that a call builds: those of the
    shard stage and those that the repetition gives. *)
Lemma read_dataset_paths (num_workers worker_index : Z)
    (dataset : Dataset.t Decoded) :
  read_dataset matching_files Record_ Decoded file_read_func decode_func
    input_files config num_workers worker_index = Some dataset →
  shard_paths dataset
  = worker_files matching_files input_files num_workers worker_index ∧
  epoch_paths dataset
  = (paths ← worker_files matching_files input_files num_workers
               worker_index;
     match paths with
     | Finite mine =>
         Some (repeat_elements (or_None (num_epochs config)) mine)
     | Forever cycle => Some (Forever cycle)
     end).
Proof.
  intros Hread.
  destruct (read_dataset_stages _ _ _ Hread) as [Hbuilds _].
  rewrite read_dataset_composition in Hread by done.
  injection Hread as <-.
  unfold shard_paths, epoch_paths, worker_files, read_dataset_shard.
  rewrite read_dataset_filenames_given by apply Hbuilds.
  by destruct (shuffle config).
Qed.

End Built.

(** Each matched path is the file of some worker. *)
Lemma files_covered (num_workers : Z) (files : list string) (x : string) :
  0 < num_workers →
  x ∈ files ↔
  ∃ w : Z, 0 ≤ w < num_workers ∧ x ∈ shard_from num_workers w 0 files.
Proof.
  intros Hn. split.
  - intros [i Hi]%list_elem_of_lookup.
    destruct (position_shard num_workers i Hn) as [Hw Hpos].
    eexists. split; [exact Hw|].
    apply elem_of_shard; [exact Hw|]. exists (i / Z.to_nat num_workers)%nat.
    by rewrite <-Hpos.
  - intros (w & Hw & [j Hj]%elem_of_shard); [|done].
    by eapply list_elem_of_lookup_2.
Qed.

(** Among paths that are all different, two shards share none. *)
Lemma shards_apart (num_workers index other : Z) (files : list string)
    (x : string) :
  NoDup files →
  0 ≤ index < num_workers → 0 ≤ other < num_workers → other ≠ index →
  x ∈ shard_from num_workers index 0 files →
  x ∉ shard_from num_workers other 0 files.
Proof.
  intros Hnodup Hi Ho Hne [j Hj]%elem_of_shard [j' Hj']%elem_of_shard;
    [|done..].
  pose proof (NoDup_lookup _ _ _ _ Hnodup Hj Hj') as Heq.
  exact (positions_apart num_workers index other j j' Hi Ho Hne Heq).
Qed.




Lemma tf_size_filenames (matching_files : string → list string)
    (input_files : list string) :
  tf_size (mjoin (matching_files <$> input_files))
  = Z.of_nat (sum_list (length ∘ matching_files <$> input_files)).
Proof. unfold tf_size. by rewrite length_join, list_fmap_compose. Qed.

Lemma no_match_filenames (matching_files : string → list string)
    (input_files : list string) :
  Forall (λ pattern, matching_files pattern = []) input_files →
  mjoin (matching_files <$> input_files) = [].
Proof.
  induction 1 as [|p ps Hp _ IH]; [done|].
  rewrite fmap_cons.
  change (matching_files p ++ mjoin (matching_files <$> ps) = []).
  by rewrite Hp, IH.
Qed.

Section Claims.

Variable matching_files : string → list string.
Context {Record_ Decoded : Type}.
Variable file_read_func : string → Dataset.t Record_.
Variable decode_func : Record_ → Decoded.
Variable input_files : list string.
Variable config : InputReader.
Variables num_workers worker_index : Z.

(** C3, as the code has it: on every call that builds a pipeline, with
    [num_workers > 0] and [0 <= worker_index < num_workers], the shard
    stage of the pipeline gives the worker exactly the matched paths at
    the positions that are [worker_index] modulo [num_workers], in
    their order.  No position goes to two workers, every matched path
    goes to some worker, and the sets of paths of two workers are
    disjoint when no path is matched twice. *)
Theorem shard_by_position :
  builds_pipeline matching_files input_files config →
  0 < num_workers → 0 ≤ worker_index < num_workers →
  ∃ (files : list string) (dataset : Dataset.t Decoded)
    (mine : list string),
    read_dataset_filenames matching_files input_files = Some files ∧
    read_dataset matching_files Record_ Decoded file_read_func decode_func
      input_files config num_workers worker_index = Some dataset ∧
    shard_paths dataset = Some (Finite mine) ∧
    (∀ j : nat,
       mine !! j
       = files !! (j * Z.to_nat num_workers + Z.to_nat worker_index)%nat) ∧
    (∀ (other : Z) (j j' : nat),
       0 ≤ other < num_workers → other ≠ worker_index →
       (j * Z.to_nat num_workers + Z.to_nat worker_index
        ≠ j' * Z.to_nat num_workers + Z.to_nat other)%nat) ∧
    (∀ x : string,
       x ∈ files ↔
       ∃ (w : Z) (theirs : list string) (pipeline : Dataset.t Decoded),
         0 ≤ w < num_workers ∧
         read_dataset matching_files Record_ Decoded file_read_func
           decode_func input_files config num_workers w = Some pipeline ∧
         shard_paths pipeline = Some (Finite theirs) ∧
         x ∈ theirs) ∧
    (NoDup files →
     ∀ (other : Z) (theirs : list string) (pipeline : Dataset.t Decoded)
       (x : string),
       0 ≤ other < num_workers → other ≠ worker_index →
       read_dataset matching_files Record_ Decoded file_read_func
         decode_func input_files config num_workers other = Some pipeline →
       shard_paths pipeline = Some (Finite theirs) →
       x ∈ mine → x ∉ theirs).
Proof.
  intros Hbuilds Hn Hrange.
  pose proof Hbuilds as (Hfiles & _).
  set (files := mjoin (matching_files <$> input_files)).
  assert (∀ w pipeline,
            read_dataset matching_files Record_ Decoded file_read_func
              decode_func input_files config num_workers w = Some pipeline →
            0 ≤ w < num_workers →
            shard_paths pipeline
            = Some (Finite (shard_from num_workers w 0 files))) as Hshard.
  { intros w pipeline Hread Hw.
    destruct (read_dataset_paths _ _ _ _ _ _ _ _ Hread) as [-> _].
    by apply worker_files_in_range. }
  pose proof (λ w, read_dataset_composition matching_files file_read_func
                     decode_func input_files config num_workers w Hbuilds)
    as Hbuilt.
  exists files. eexists. eexists.
  split; [by apply read_dataset_filenames_given|].
  split; [exact (Hbuilt worker_index)|].
  split; [exact (Hshard _ _ (Hbuilt worker_index) Hrange)|].
  split; [|split; [|split]].
  - intros j. by apply shard_lookup.
  - intros other j j' Ho Hne. by apply positions_apart.
  - intros x. rewrite (files_covered num_workers files x Hn). split.
    + intros (w & Hw & Hx). exists w. eexists. eexists.
      split; [done|]. split; [exact (Hbuilt w)|].
      split; [exact (Hshard _ _ (Hbuilt w) Hw)|done].
    + intros (w & theirs & pipeline & Hw & Hread & Hpaths & Hx).
      exists w. split; [done|].
      rewrite (Hshard _ _ Hread Hw) in Hpaths. by injection Hpaths as ->.
  - intros Hnodup other theirs pipeline x Ho Hne Hread Hpaths Hx.
    rewrite (Hshard _ _ Hread Ho) in Hpaths. injection Hpaths as <-.
    exact (shards_apart num_workers worker_index other files x
             Hnodup Hrange Ho Hne Hx).
Qed.


(** C1: on every call that builds a pipeline, [read_dataset] returns
    the composition, in this order, of the expansion of the patterns
    into file paths, the shard by [(num_workers, worker_index)], the
    repetition per [num_epochs], a shuffle of the file paths that is
    there only if [config.shuffle] is set and shuffles again on every
    pass, the interleave of [file_read_func] with block length 1, a
    shuffle of the records that is there only if [config.shuffle] is
    set, the map of [decode_func] and the prefetch; its chain of stages
    is that of §4.4 and holds no other stage. *)
Theorem read_dataset_stage_order :
  builds_pipeline matching_files input_files config →
  ∃ (filenames : list string) (dataset : Dataset.t Decoded),
    filenames = mjoin (matching_files <$> input_files) ∧
    read_dataset matching_files Record_ Decoded file_read_func decode_func
      input_files config num_workers worker_index = Some dataset ∧
    dataset
    = Dataset.prefetch (prefetch_buffer_size config)
        (Dataset.map decode_func (num_readers config)
           (shuffle_if (shuffle config) (shuffle_buffer_size config)
              (Dataset.interleave file_read_func
                 (Z.min (num_readers config) (tf_size filenames)) 1
                 (shuffle_if (shuffle config)
                    (filenames_shuffle_buffer_size config)
                    (Dataset.repeat (or_None (num_epochs config))
                       (Dataset.shard num_workers worker_index
                          (Dataset.from_tensor_slices filenames))))))) ∧
    stages dataset
    = spec_stages config num_workers worker_index (tf_size filenames).
Proof.
  intros Hbuilds. eexists _, _. split; [reflexivity|].
  split; [by apply read_dataset_composition|]. split; [reflexivity|].
  eapply read_dataset_stages. by apply read_dataset_composition.
Qed.

(** C6: on every call that builds a pipeline, the pipeline has one
    interleave stage; its cycle length is the smaller of
    [config.num_readers] and the number of file paths matched by all
    the patterns together, counted before the shard, and its block
    length is 1. *)
Theorem interleave_cycle_length :
  builds_pipeline matching_files input_files config →
  ∃ dataset : Dataset.t Decoded,
    read_dataset matching_files Record_ Decoded file_read_func decode_func
      input_files config num_workers worker_index = Some dataset ∧
    omap interleave_arguments (stages dataset)
    = [ (Z.min (num_readers config)
           (Z.of_nat (sum_list (length ∘ matching_files <$> input_files))),
         1) ].
Proof.
  intros Hbuilds.
  pose proof (read_dataset_composition matching_files file_read_func
                decode_func input_files config num_workers worker_index
                Hbuilds) as Hread.
  eexists. split; [exact Hread|].
  destruct (read_dataset_stages _ _ _ _ _ _ _ _ Hread) as [_ ->].
  rewrite <-tf_size_filenames. unfold spec_stages.
  by destruct (shuffle config).
Qed.

(** *** When no pattern matches a file *)

(** No file path reaches the interleave stage, which is asked for a
    cycle of length zero; what the stage then gives is not
    determined. *)
Lemma no_match_pipeline :
  builds_pipeline matching_files input_files config →
  Forall (λ pattern, matching_files pattern = []) input_files →
  0 ≤ worker_index < num_workers → 0 ≤ num_readers config →
  ∃ dataset : Dataset.t Decoded,
    read_dataset matching_files Record_ Decoded file_read_func decode_func
      input_files config num_workers worker_index = Some dataset ∧
    epoch_paths dataset = Some (Finite []) ∧
    omap interleave_arguments (stages dataset) = [ (0, 1) ] ∧
    elements dataset = None.
Proof.
  intros Hbuilds Hnone Hrange Hreaders. pose proof Hbuilds as (Hfiles & _).
  pose proof (read_dataset_composition matching_files file_read_func
                decode_func input_files config num_workers worker_index
                Hbuilds) as Hread.
  eexists. split; [exact Hread|].
  destruct (read_dataset_paths _ _ _ _ _ _ _ _ Hread) as [_ ->].
  destruct (read_dataset_stages _ _ _ _ _ _ _ _ Hread) as [_ ->].
  rewrite worker_files_in_range by done.
  rewrite no_match_filenames by done. split; [|split].
  - cbn [mbind option_bind shard_from]. f_equal.
    unfold repeat_elements. destruct (or_None _); [|done].
    case_decide; [done|]. f_equal.
    induction (Z.to_nat _) as [|n IH]; simpl; [done|exact IH].
  - unfold spec_stages, tf_size. simpl.
    rewrite Z.min_r by lia. by destruct (shuffle config).
  - unfold tf_size. simpl length. rewrite Z.min_r by lia.
    destruct (shuffle config); [done|].
    cbn [elements shuffle_if mbind option_bind fmap option_fmap option_map].
    rewrite decide_True by done. cbn [mbind option_bind].
    by rewrite bool_decide_false by lia.
Qed.

End Claims.

(** C3 for the second of three workers over two patterns, of two and
    of three files. *)
Lemma shard_by_position_witness :
  ∃ (files : list string) (dataset : Dataset.t string)
    (mine : list string),
    read_dataset_filenames train_val_files ["train-*"; "val-*"]
      = Some files ∧
    read_dataset train_val_files string string one_record_files id
      ["train-*"; "val-*"] three_epochs 3 1 = Some dataset ∧
    shard_paths dataset = Some (Finite mine) ∧
    (∀ j : nat,
       mine !! j = files !! (j * Z.to_nat 3 + Z.to_nat 1)%nat) ∧
    (∀ (other : Z) (j j' : nat),
       0 ≤ other < 3 → other ≠ 1 →
       (j * Z.to_nat 3 + Z.to_nat 1 ≠ j' * Z.to_nat 3 + Z.to_nat other)%nat) ∧
    (∀ x : string,
       x ∈ files ↔
       ∃ (w : Z) (theirs : list string) (pipeline : Dataset.t string),
         0 ≤ w < 3 ∧
         read_dataset train_val_files string string one_record_files id
           ["train-*"; "val-*"] three_epochs 3 w = Some pipeline ∧
         shard_paths pipeline = Some (Finite theirs) ∧
         x ∈ theirs) ∧
    (NoDup files →
     ∀ (other : Z) (theirs : list string) (pipeline : Dataset.t string)
       (x : string),
       0 ≤ other < 3 → other ≠ 1 →
       read_dataset train_val_files string string one_record_files id
         ["train-*"; "val-*"] three_epochs 3 other = Some pipeline →
       shard_paths pipeline = Some (Finite theirs) →
       x ∈ mine → x ∉ theirs).
Proof.
  apply (shard_by_position train_val_files one_record_files id
           ["train-*"; "val-*"] three_epochs 3 1).
  - by repeat split.
  - lia.
  - lia.
Defined.

Example worker_files_three_workers :
  shard_paths <$> read_dataset train_val_files string string
                    one_record_files id ["train-*"; "val-*"] three_epochs 3 1
  = Some (Some (Finite ["train-1"; "val-2"])).
Proof. reflexivity. Qed.

(** C3, as the specification words it, fails when a path is matched
    twice: listed under two patterns, the one file goes to both of two
    workers, whose sets of files are then not disjoint. *)
Lemma shards_share_repeated_path :
  ∃ first second : Dataset.t string,
    read_dataset literal_files string string one_record_files id
      ["part-0"; "part-0"] three_epochs 2 0 = Some first ∧
    read_dataset literal_files string string one_record_files id
      ["part-0"; "part-0"] three_epochs 2 1 = Some second ∧
    shard_paths first = Some (Finite ["part-0"]) ∧
    shard_paths second = Some (Finite ["part-0"]) ∧
    ¬ (∀ (mine theirs : list string) (x : string),
         shard_paths first = Some (Finite mine) →
         shard_paths second = Some (Finite theirs) →
         x ∈ mine → x ∉ theirs).
Proof.
  eexists. eexists. split; [reflexivity|]. split; [reflexivity|].
  split; [reflexivity|]. split; [reflexivity|].
  intros Hdisjoint.
  apply (Hdisjoint ["part-0"] ["part-0"] "part-0");
    [reflexivity|reflexivity|apply list_elem_of_here..].
Qed.


Example three_epochs_paths :
  epoch_paths <$> read_dataset train_val_files string string
                    one_record_files id ["train-*"; "val-*"] three_epochs 3 1
  = Some (Some (Finite ["train-1"; "val-2"; "train-1"; "val-2";
                        "train-1"; "val-2"])).
Proof. reflexivity. Qed.

Example endless_paths :
  epoch_paths <$> read_dataset train_val_files string string
                    one_record_files id ["train-*"; "val-*"] endless 3 1
  = Some (Some (Forever ["train-1"; "val-2"])).
Proof. reflexivity. Qed.


(** C1 on a call with two patterns. *)
Lemma read_dataset_stage_order_witness :
  ∃ (filenames : list string) (dataset : Dataset.t string),
    filenames = mjoin (train_val_files <$> ["train-*"; "val-*"]) ∧
    read_dataset train_val_files string string one_record_files id
      ["train-*"; "val-*"] three_epochs 3 1 = Some dataset ∧
    dataset
    = Dataset.prefetch (prefetch_buffer_size three_epochs)
        (Dataset.map id (num_readers three_epochs)
           (shuffle_if (shuffle three_epochs)
              (shuffle_buffer_size three_epochs)
              (Dataset.interleave one_record_files
                 (Z.min (num_readers three_epochs) (tf_size filenames)) 1
                 (shuffle_if (shuffle three_epochs)
                    (filenames_shuffle_buffer_size three_epochs)
                    (Dataset.repeat (or_None (num_epochs three_epochs))
                       (Dataset.shard 3 1
                          (Dataset.from_tensor_slices filenames))))))) ∧
    stages dataset = spec_stages three_epochs 3 1 (tf_size filenames).
Proof.
  apply (read_dataset_stage_order train_val_files one_record_files id
           ["train-*"; "val-*"] three_epochs 3 1).
  by repeat split.
Defined.

(** C6 on the same call: four readers for five files. *)
Lemma interleave_cycle_length_witness :
  ∃ dataset : Dataset.t string,
    read_dataset train_val_files string string one_record_files id
      ["train-*"; "val-*"] three_epochs 3 1 = Some dataset ∧
    omap interleave_arguments (stages dataset)
    = [ (Z.min (num_readers three_epochs)
           (Z.of_nat (sum_list (length ∘ train_val_files
                                  <$> ["train-*"; "val-*"]))),
         1) ].
Proof.
  apply (interleave_cycle_length train_val_files one_record_files id
           ["train-*"; "val-*"] three_epochs 3 1).
  by repeat split.
Defined.

(** The calls on which the code raises build no pipeline. *)
Example read_dataset_no_pattern :
  read_dataset train_val_files string string one_record_files id
    [] three_epochs 1 0 = None.
Proof. reflexivity. Qed.

Example read_dataset_wide_readers :
  read_dataset train_val_files string string one_record_files id
    ["train-*"]
    {| num_epochs := Some 1; shuffle := false;
       filenames_shuffle_buffer_size := 100; shuffle_buffer_size := 2048;
       num_readers := 2 ^ 31; prefetch_buffer_size := 2 |} 1 0
  = None.
Proof. reflexivity. Qed.

End Pipeline.

(** ** More on the dataset pipeline *)

Module PipelineShape.

(** *** The sizes of the shards *)

Section ShardSize.

Context {A : Type}.
Variables num_shards index : Z.
Hypothesis index_in_range : 0 ≤ index < num_shards.

(** The size [m] of a shard is fixed by the size of the sequence: the
    position of a further element of the shard, [m * num_shards + index],
    is the first one of its kind that is out of the sequence. *)
Lemma shard_length (elems : list A) :
  (length elems
   ≤ length (shard_from num_shards index 0 elems) * Z.to_nat num_shards
     + Z.to_nat index
   < length elems + Z.to_nat num_shards)%nat.
Proof.
  set (m := length (shard_from num_shards index 0 elems)).
  split.
  - apply lookup_ge_None.
    rewrite <-(Pipeline.shard_lookup num_shards index index_in_range).
    by apply lookup_ge_None.
  - destruct m as [|m'] eqn:Hm; [lia|].
    assert (is_Some (shard_from num_shards index 0 elems !! m')) as Hlast.
    { apply lookup_lt_is_Some. fold m. lia. }
    rewrite (Pipeline.shard_lookup num_shards index index_in_range) in Hlast.
    apply lookup_lt_is_Some in Hlast. lia.
Qed.

End ShardSize.

(** X10: the shards are balanced: the numbers of files of two workers
    differ by one at most. *)
Theorem shards_balanced (matching_files : string → list string)
    (input_files : list string) (num_workers w1 w2 : Z)
    (files1 files2 : list string) :
  worker_files matching_files input_files num_workers w1
    = Some (Finite files1) →
  worker_files matching_files input_files num_workers w2
    = Some (Finite files2) →
  (length files1 ≤ length files2 + 1)%nat.
Proof.
  intros [H1 ->]%Pipeline.worker_files_inv [H2 ->]%Pipeline.worker_files_inv.
  set (files := mjoin (matching_files <$> input_files)).
  pose proof (shard_length num_workers w1 H1 files) as Hm1.
  pose proof (shard_length num_workers w2 H2 files) as Hm2.
  nia.
Qed.

Lemma shards_balanced_witness :
  (length ["train-0"; "val-1"] ≤ length ["val-0"] + 1)%nat.
Proof.
  apply (shards_balanced train_val_files ["train-*"; "val-*"] 3 0 2);
    reflexivity.
Defined.

(** *** All the shards together *)

Lemma join_nil_shards {A B : Type} (ws : list B) :
  mjoin ((λ _ : B, @nil A) <$> ws) = [].
Proof. induction ws as [|w ws IH]; [done|]. exact IH. Qed.

(** One element more in the list of one index. *)
Lemma join_insert_one {A : Type} (f : Z → list A) (ws : list Z)
    (k : Z) (x : A) :
  NoDup ws → k ∈ ws →
  mjoin ((λ w, if decide (k = w) then x :: f w else f w) <$> ws)
  ≡ₚ x :: mjoin (f <$> ws).
Proof.
  induction 1 as [|w ws Hw Hnodup IH]; [by intros ?%elem_of_nil|].
  rewrite !fmap_cons. cbn [mjoin list_join].
  intros [<-|Hk]%elem_of_cons.
  - rewrite decide_True by done.
    assert ((λ w, if decide (k = w) then x :: f w else f w) <$> ws
            = f <$> ws) as ->; [|done].
    apply list_fmap_ext. intros i w' Hw'.
    rewrite decide_False; [done|]. intros <-.
    by apply list_elem_of_lookup_2 in Hw'.
  - rewrite decide_False by (intros <-; done).
    rewrite (IH Hk). by rewrite Permutation_middle.
Qed.

Lemma join_shards_from {A : Type} (num_workers next_index : Z)
    (elems : list A) :
  0 < num_workers →
  mjoin ((λ w, shard_from num_workers w next_index elems)
           <$> seqZ 0 num_workers)
  ≡ₚ elems.
Proof.
  intros Hn. revert next_index.
  induction elems as [|x elems IH]; intros s.
  - cbn [shard_from]. by rewrite join_nil_shards.
  - cbn [shard_from].
    rewrite (join_insert_one
               (λ w, shard_from num_workers w (s + 1) elems)
               _ (s mod num_workers) x).
    + by rewrite IH.
    + apply NoDup_seqZ.
    + apply elem_of_seqZ. pose proof (Z.mod_pos_bound s num_workers). lia.
Qed.

Section Stages.

Variable matching_files : string → list string.
Context {Record_ Decoded : Type}.
Variable file_read_func : string → Dataset.t Record_.
Variable decode_func : Record_ → Decoded.
Variable input_files : list string.
Variable config : InputReader.
Variables num_workers worker_index : Z.

(** X11: on every call that builds a pipeline, the workers share the
    work out: the shards of the pipelines of the workers
    [0 .. num_workers - 1], put one after the other, are a permutation
    of the file paths, so that each occurrence of a path in the list is
    read by one worker and by one only. *)
Theorem shards_partition_files :
  builds_pipeline matching_files input_files config →
  0 < num_workers →
  ∃ files : list string,
    read_dataset_filenames matching_files input_files = Some files ∧
    Forall2 (λ w shard,
        ∃ dataset : Dataset.t Decoded,
          read_dataset matching_files Record_ Decoded file_read_func
            decode_func input_files config num_workers w = Some dataset ∧
          shard_paths dataset = Some (Finite shard))
      (seqZ 0 num_workers) (all_shards num_workers files) ∧
    mjoin (all_shards num_workers files) ≡ₚ files.
Proof.
  intros Hbuilds Hn. pose proof Hbuilds as (Hfiles & _).
  eexists. split; [by apply Pipeline.read_dataset_filenames_given|].
  split; [|by apply join_shards_from].
  unfold all_shards. apply Forall2_fmap_r, Forall_Forall2_diag.
  apply Forall_forall. intros w Hw%elem_of_seqZ.
  pose proof (Pipeline.read_dataset_composition matching_files
                file_read_func decode_func input_files config num_workers w
                Hbuilds) as Hread.
  eexists. split; [exact Hread|].
  destruct (Pipeline.read_dataset_paths _ _ _ _ _ _ _ _ Hread) as [-> _].
  apply Pipeline.worker_files_in_range; [done|lia].
Qed.

(** X12: on every call that builds a pipeline, the pipeline holds no
    shuffle stage when [config.shuffle] is not set, and two when it is:
    one with the buffer size for the file names, one with the buffer
    size for the records, in this order and both shuffling again on
    every pass. *)
Theorem shuffle_stages_of_config :
  builds_pipeline matching_files input_files config →
  ∃ dataset : Dataset.t Decoded,
    read_dataset matching_files Record_ Decoded file_read_func decode_func
      input_files config num_workers worker_index = Some dataset ∧
    omap shuffle_arguments (stages dataset)
    = if shuffle config
      then [ (filenames_shuffle_buffer_size config, true);
             (shuffle_buffer_size config, true) ]
      else [].
Proof.
  intros Hbuilds.
  pose proof (Pipeline.read_dataset_composition matching_files
                file_read_func decode_func input_files config num_workers
                worker_index Hbuilds) as Hread.
  eexists. split; [exact Hread|].
  destruct (Pipeline.read_dataset_stages _ _ _ _ _ _ _ _ Hread) as [_ ->].
  unfold spec_stages. by destruct (shuffle config).
Qed.

(** X13: on every call that builds a pipeline with a reader and a
    matched file at least, the cycle length of the interleave stage is
    at least one, at most [config.num_readers] and at most the number
    of matched files. *)
Theorem cycle_length_bounded :
  builds_pipeline matching_files input_files config →
  1 ≤ num_readers config →
  mjoin (matching_files <$> input_files) ≠ [] →
  ∃ (dataset : Dataset.t Decoded) (cycle_length : Z),
    read_dataset matching_files Record_ Decoded file_read_func decode_func
      input_files config num_workers worker_index = Some dataset ∧
    omap interleave_arguments (stages dataset) = [ (cycle_length, 1) ] ∧
    1 ≤ cycle_length ≤ num_readers config ∧
    cycle_length ≤ tf_size (mjoin (matching_files <$> input_files)).
Proof.
  intros Hbuilds Hreaders Hfiles.
  pose proof (Pipeline.read_dataset_composition matching_files
                file_read_func decode_func input_files config num_workers
                worker_index Hbuilds) as Hread.
  eexists. eexists. split; [exact Hread|].
  destruct (Pipeline.read_dataset_stages _ _ _ _ _ _ _ _ Hread) as [_ ->].
  split.
  - unfold spec_stages. by destruct (shuffle config).
  - unfold tf_size.
    destruct (mjoin (matching_files <$> input_files)); [done|].
    simpl length. lia.
Qed.

(** X14: the cycle length is measured on the files of all the workers:
    on a call that builds a pipeline, with two workers or more and two
    files or more, a [num_readers] that is not below the number of
    matched files leaves a cycle length that is larger than the number
    of files of the worker. *)
Theorem cycle_length_exceeds_shard :
  builds_pipeline matching_files input_files config →
  2 ≤ num_workers → 0 ≤ worker_index < num_workers →
  2 ≤ tf_size (mjoin (matching_files <$> input_files))
    ≤ num_readers config →
  ∃ (dataset : Dataset.t Decoded) (cycle_length : Z) (mine : list string),
    read_dataset matching_files Record_ Decoded file_read_func decode_func
      input_files config num_workers worker_index = Some dataset ∧
    omap interleave_arguments (stages dataset) = [ (cycle_length, 1) ] ∧
    shard_paths dataset = Some (Finite mine) ∧
    tf_size mine < cycle_length.
Proof.
  intros Hbuilds Hworkers Hrange Hfiles. pose proof Hbuilds as (Hsome & _).
  pose proof (Pipeline.read_dataset_composition matching_files
                file_read_func decode_func input_files config num_workers
                worker_index Hbuilds) as Hread.
  eexists. eexists. eexists. split; [exact Hread|].
  destruct (Pipeline.read_dataset_stages _ _ _ _ _ _ _ _ Hread) as [_ ->].
  destruct (Pipeline.read_dataset_paths _ _ _ _ _ _ _ _ Hread) as [-> _].
  split; [|split].
  - unfold spec_stages. by destruct (shuffle config).
  - by apply Pipeline.worker_files_in_range.
  - rewrite Z.min_r by lia. unfold tf_size in *.
    pose proof (shard_length num_workers worker_index Hrange
                  (mjoin (matching_files <$> input_files))).
    nia.
Qed.

End Stages.

Lemma shards_partition_files_witness :
  ∃ files : list string,
    read_dataset_filenames train_val_files ["train-*"; "val-*"]
      = Some files ∧
    Forall2 (λ w shard,
        ∃ dataset : Dataset.t string,
          read_dataset train_val_files string string one_record_files id
            ["train-*"; "val-*"] three_epochs 3 w = Some dataset ∧
          shard_paths dataset = Some (Finite shard))
      (seqZ 0 3) (all_shards 3 files) ∧
    mjoin (all_shards 3 files) ≡ₚ files.
Proof.
  apply (shards_partition_files train_val_files one_record_files id
           ["train-*"; "val-*"] three_epochs 3).
  - by repeat split.
  - lia.
Defined.

Lemma shuffle_stages_of_config_witness :
  ∃ dataset : Dataset.t string,
    read_dataset train_val_files string string one_record_files id
      ["train-*"; "val-*"] three_epochs 3 1 = Some dataset ∧
    omap shuffle_arguments (stages dataset)
    = if shuffle three_epochs
      then [ (filenames_shuffle_buffer_size three_epochs, true);
             (shuffle_buffer_size three_epochs, true) ]
      else [].
Proof.
  apply (shuffle_stages_of_config train_val_files one_record_files id
           ["train-*"; "val-*"] three_epochs 3 1).
  by repeat split.
Defined.

Lemma cycle_length_bounded_witness :
  ∃ (dataset : Dataset.t string) (cycle_length : Z),
    read_dataset train_val_files string string one_record_files id
      ["train-*"; "val-*"] three_epochs 3 1 = Some dataset ∧
    omap interleave_arguments (stages dataset) = [ (cycle_length, 1) ] ∧
    1 ≤ cycle_length ≤ num_readers three_epochs ∧
    cycle_length
    ≤ tf_size (mjoin (train_val_files <$> ["train-*"; "val-*"])).
Proof.
  apply (cycle_length_bounded train_val_files one_record_files id
           ["train-*"; "val-*"] three_epochs 3 1).
  - by repeat split.
  - simpl. lia.
  - discriminate.
Defined.

Lemma cycle_length_exceeds_shard_witness :
  ∃ (dataset : Dataset.t string) (cycle_length : Z) (mine : list string),
    read_dataset train_val_files string string one_record_files id
      ["train-*"; "val-*"] many_readers 3 1 = Some dataset ∧
    omap interleave_arguments (stages dataset) = [ (cycle_length, 1) ] ∧
    shard_paths dataset = Some (Finite mine) ∧
    tf_size mine < cycle_length.
Proof.
  apply (cycle_length_exceeds_shard train_val_files one_record_files id
           ["train-*"; "val-*"] many_readers 3 1).
  - by repeat split.
  - lia.
  - lia.
  - split; [by vm_compute|by vm_compute].
Defined.

End PipelineShape.

(** ** Initializable iterators *)

Module Iterators.

Section Registered.

Variables (operation : Type) (Iterator : Type → Type).
Variable iterator_resource : ∀ A : Type, Iterator A → operation.
Variable initializer : ∀ A : Type, Iterator A → operation.
Variable new_iterator : ∀ A : Type, Dataset.t A → Iterator A.
Context {A : Type}.

Lemma add_to_collection_same (name : string) (value : operation)
    (collections : gmap string (list operation)) :
  default [] (add_to_collection name value collections !! name)
  = default [] (collections !! name) ++ [value].
Proof. unfold add_to_collection. by rewrite lookup_insert_eq. Qed.

Lemma add_to_collection_other (name other : string) (value : operation)
    (collections : gmap string (list operation)) :
  other ≠ name →
  add_to_collection name value collections !! other = collections !! other.
Proof. intros Hne. unfold add_to_collection. by rewrite lookup_insert_ne. Qed.

(** X15: calls of [make_initializable_iterator], one per dataset,
    return the iterators of the datasets and leave their initializers
    in the collection of the table initializers, after what was there
    and in the order of the calls, one entry per call even for a
    dataset that comes twice.  The library puts the resources of the
    iterators into the collection of the iterators in the same way; no
    other collection is touched. *)
Theorem initializers_registered
    (collections : gmap string (list operation))
    (datasets : list (Dataset.t A)) :
  let result :=
    make_initializable_iterators operation Iterator iterator_resource
      initializer new_iterator collections datasets in
  result.2 = new_iterator A <$> datasets ∧
  default [] (result.1 !! TABLE_INITIALIZERS)
  = default [] (collections !! TABLE_INITIALIZERS)
    ++ (initializer A <$> result.2) ∧
  default [] (result.1 !! GLOBAL_ITERATORS)
  = default [] (collections !! GLOBAL_ITERATORS)
    ++ (iterator_resource A <$> result.2) ∧
  ∀ name : string,
    name ≠ TABLE_INITIALIZERS → name ≠ GLOBAL_ITERATORS →
    result.1 !! name = collections !! name.
Proof.
  revert collections.
  induction datasets as [|dataset rest IH]; intros collections.
  - simpl. by rewrite !app_nil_r.
  - cbn [make_initializable_iterators make_initializable_iterator
         Dataset_make_initializable_iterator].
    specialize (IH (add_to_collection TABLE_INITIALIZERS
                      (initializer A (new_iterator A dataset))
                      (add_to_collection GLOBAL_ITERATORS
                         (iterator_resource A (new_iterator A dataset))
                         collections))).
    destruct (make_initializable_iterators _ _ _ _ _ _ rest)
      as [collections' iterators].
    simpl in *. destruct IH as (-> & Hinit & Hiter & Hother).
    split; [done|]. split; [|split].
    + rewrite Hinit, add_to_collection_same.
      rewrite add_to_collection_other by done. by rewrite <-app_assoc.
    + rewrite Hiter, add_to_collection_other by done.
      rewrite add_to_collection_same. by rewrite <-app_assoc.
    + intros name Htable Hiterators. rewrite Hother by done.
      by rewrite !add_to_collection_other.
Qed.

End Registered.

End Iterators.
